(** * rotation_marker.js: the 3D wireframe renderer

    A shallow embedding of the point-cloud renderer of
    [src/rotation_marker.js] (the second script of the file: configuration,
    pointer handlers, [loadOBJ], [animate], the matrix helpers and
    [loadFirstOBJ]; of the first script, [getFirstSVG]), and the
    properties of its model loader, rotation state, projector and style
    resolver.

    Numbers.  A JavaScript number is an IEEE-754 double.  The embedding keeps
    the special values the program can run into ([NaN], [+Infinity],
    [-Infinity]) and takes every finite double as the real number it denotes:
    arithmetic on finite values is exact (no rounding, no overflow) and the
    two zeros are not told apart (a zero divisor counts as [+0], which is the
    only zero the divisors of this program can be).  [undefined], which the
    program only ever feeds to arithmetic, is read as [NaN], its [ToNumber]
    value. *)

From Stdlib Require Import Reals RList Lra Lia List String Ascii Bool.
From Stdlib Require Import ZArith QArith Qreals RNsatz.
From Stdlib Require Import Decimal DecimalString DecimalNat.
Import ListNotations.

Close Scope Q_scope.
Set Implicit Arguments.

(* ================================================================= *)
(** ** JavaScript numbers *)

Module Num.

Local Open Scope R_scope.

Inductive num : Type :=
| NaN
| NInf
| PInf
| Fin (r : R).

Definition Rltb (x y : R) : bool := if Rlt_dec x y then true else false.

(** Sign of a real: [Lt] negative, [Eq] zero, [Gt] positive. *)
Definition Rsign (r : R) : comparison :=
  if Rlt_dec 0 r then Gt else if Rlt_dec r 0 then Lt else Eq.

Definition sign_mul (a b : comparison) : comparison :=
  match a, b with
  | Eq, _ | _, Eq => Eq
  | Lt, Lt | Gt, Gt => Gt
  | _, _ => Lt
  end.

(** The infinity of a given sign; a zero sign stands for an invalid
    operation ([0 * Infinity], [0 / 0]). *)
Definition inf_of (s : comparison) : num :=
  match s with Eq => NaN | Lt => NInf | Gt => PInf end.

Definition sign (a : num) : comparison :=
  match a with
  | NaN => Eq
  | NInf => Lt
  | PInf => Gt
  | Fin r => Rsign r
  end.

Definition neg (a : num) : num :=
  match a with
  | NaN => NaN
  | NInf => PInf
  | PInf => NInf
  | Fin r => Fin (- r)
  end.

Definition add (a b : num) : num :=
  match a, b with
  | NaN, _ | _, NaN => NaN
  | Fin x, Fin y => Fin (x + y)
  | PInf, NInf | NInf, PInf => NaN
  | PInf, _ | _, PInf => PInf
  | NInf, _ | _, NInf => NInf
  end.

Definition sub (a b : num) : num := add a (neg b).

Definition mul (a b : num) : num :=
  match a, b with
  | NaN, _ | _, NaN => NaN
  | Fin x, Fin y => Fin (x * y)
  | _, _ => inf_of (sign_mul (sign a) (sign b))
  end.

Definition div (a b : num) : num :=
  match a, b with
  | NaN, _ | _, NaN => NaN
  | Fin x, Fin y =>
      match Rsign y with
      | Eq => inf_of (Rsign x)
      | _ => Fin (x / y)
      end
  | Fin _, _ => Fin 0
  | _, Fin y =>
      match Rsign y with
      | Eq => a
      | s => inf_of (sign_mul (sign a) s)
      end
  | _, _ => NaN
  end.

(** [a < b]; every comparison with [NaN] is false. *)
Definition lt (a b : num) : bool :=
  match a, b with
  | NaN, _ | _, NaN => false
  | Fin x, Fin y => Rltb x y
  | NInf, NInf | PInf, _ | _, NInf => false
  | NInf, _ | _, PInf => true
  end.

Definition gt (a b : num) : bool := lt b a.

(** [Math.abs], [Math.sqrt], [Math.cos], [Math.sin]. *)
Definition Math_abs (a : num) : num :=
  match a with
  | NaN => NaN
  | NInf | PInf => PInf
  | Fin r => Fin (Rabs r)
  end.

Definition Math_sqrt (a : num) : num :=
  match a with
  | NaN | NInf => NaN
  | PInf => PInf
  | Fin r => if Rlt_dec r 0 then NaN else Fin (sqrt r)
  end.

Definition Math_cos (a : num) : num :=
  match a with Fin r => Fin (cos r) | _ => NaN end.

Definition Math_sin (a : num) : num :=
  match a with Fin r => Fin (sin r) | _ => NaN end.

(** [Math.min(...args)] and [Math.max(...args)]: the running value starts at
    [+Infinity] (resp. [-Infinity]); a [NaN] argument makes the result
    [NaN]. *)
Definition min2 (lowest x : num) : num :=
  match lowest, x with
  | NaN, _ | _, NaN => NaN
  | _, _ => if lt x lowest then x else lowest
  end.

Definition max2 (highest x : num) : num :=
  match highest, x with
  | NaN, _ | _, NaN => NaN
  | _, _ => if gt x highest then x else highest
  end.

Definition Math_min (args : list num) : num := fold_left min2 args PInf.
Definition Math_max (args : list num) : num := fold_left max2 args NInf.

(** Reading an array at an index: outside the array the read gives
    [undefined], which the arithmetic of the program turns into [NaN]. *)
Definition elt (a : list num) (i : nat) : num := nth i a NaN.

(** [a[i] = v] on an array: inside the array the element is replaced; at or
    past its end the array grows, the skipped positions being holes (read as
    [undefined]). *)
Fixpoint assign (a : list num) (i : nat) (v : num) : list num :=
  match i, a with
  | O, [] => [v]
  | O, _ :: a' => v :: a'
  | S i', [] => NaN :: assign [] i' v
  | S i', x :: a' => x :: assign a' i' v
  end.

Definition is_fin (a : num) : Prop :=
  match a with Fin _ => True | _ => False end.

Definition is_nan (a : num) : bool :=
  match a with NaN => true | _ => false end.

End Num.
Export Num.

Declare Scope js_scope.
Delimit Scope js_scope with js.
Bind Scope js_scope with num.
Infix "+" := add : js_scope.
Infix "-" := sub : js_scope.
Infix "*" := mul : js_scope.
Infix "/" := div : js_scope.
Notation "- x" := (neg x) : js_scope.
Infix "<?" := lt : js_scope.
Infix ">?" := gt : js_scope.

Open Scope js_scope.

(* ================================================================= *)
(** ** Matrix helpers *)

(** A matrix is a flat row-major array of nine numbers, a vector an array of
    three. *)

Definition identityMatrix : list num :=
  [Fin 1; Fin 0; Fin 0;  Fin 0; Fin 1; Fin 0;  Fin 0; Fin 0; Fin 1].

Definition applyMatrix (m v : list num) : list num :=
  let x := elt v 0 in
  let y := elt v 1 in
  let z := elt v 2 in
  [ elt m 0 * x + elt m 1 * y + elt m 2 * z;
    elt m 3 * x + elt m 4 * y + elt m 5 * z;
    elt m 6 * x + elt m 7 * y + elt m 8 * z ].

(** The two nested [for] loops over [r] and [c], assigning [m[r*3+c]] in an
    array that starts empty. *)
Definition multiplyMatrices (a b : list num) : list num :=
  fold_left
    (fun m r =>
       fold_left
         (fun m c =>
            assign m (r * 3 + c)
              (elt a (r * 3 + 0) * elt b (0 * 3 + c)
               + elt a (r * 3 + 1) * elt b (1 * 3 + c)
               + elt a (r * 3 + 2) * elt b (2 * 3 + c)))
         [0; 1; 2]%nat m)
    [0; 1; 2]%nat [].

Definition rotationMatrixX (angle : num) : list num :=
  let c := Math_cos angle in
  let s := Math_sin angle in
  [Fin 1; Fin 0; Fin 0;  Fin 0; c; - s;  Fin 0; s; c].

Definition rotationMatrixY (angle : num) : list num :=
  let c := Math_cos angle in
  let s := Math_sin angle in
  [c; Fin 0; s;  Fin 0; Fin 1; Fin 0;  - s; Fin 0; c].

(* ================================================================= *)
(** ** Configuration *)

(* Projection *)
Definition perspectiveFOV : num := Fin 500.
Definition modelScale : num := Fin 300.

(* Rotation *)
Definition dragSensitivity : num := Fin 0.01.
Definition rotationInertia : num := Fin 0.99.

(* Dot settings *)
Definition dotMinSize : num := Fin 2.
Definition dotMaxSize : num := Fin 15.
Definition dotMinAlpha : num := Fin 0.05.
Definition dotMaxAlpha : num := Fin 1.

Definition dotSizeDepthEffect : num := Fin 0.05.
Definition dotSizeOffset : num := Fin (-0.3).
Definition dotAlphaDepthEffect : num := Fin 0.003.
Definition dotAlphaOffset : num := Fin 0.01.

Definition dotCursorEffectRadius : num := Fin 150.
Definition dotCursorSizeBoost : num := Fin 10.
Definition dotCursorAlphaBoost : num := Fin 1.
Definition dotCursorZCutoff : num := Fin 0.

(* Line settings *)
Definition lineMinAlpha : num := Fin 0.
Definition lineMaxAlpha : num := Fin 1.

Definition lineAlphaOffset : num := Fin 0.

Definition lineCursorEffectRadius : num := Fin 100.
Definition lineCursorAlphaBoost : num := Fin 1.
Definition lineCursorZCutoff : num := Fin 0.

(* ================================================================= *)
(** ** State variables and pointer handlers *)

(** A face holds the results of [parseInt(..) - 1]: an integer, or [NaN]
    ([None]). *)
Definition index : Type := option Z.

Record state : Type := mkState {
  vertices : list (list num);
  faces : list (list index);
  rotationMatrix : list num;
  velX : num;
  velY : num;
  dragging : bool;
  lastX : num;
  lastY : num;
  mouseX : num;
  mouseY : num;
  canvas_width : num;
  canvas_height : num
}.

(** The pointer coordinates of a DOM mouse event are finite numbers. *)
Record MouseEvent : Type := mkMouseEvent {
  clientX : R;
  clientY : R
}.

(** The globals as the script leaves them before the model is loaded, on a
    window of the given inner size; [lastX] and [lastY] are still
    [undefined]. *)
Definition initial (innerWidth innerHeight : R) : state :=
  {| vertices := [];
     faces := [];
     rotationMatrix := identityMatrix;
     velX := Fin 0;
     velY := Fin 0;
     dragging := false;
     lastX := NaN;
     lastY := NaN;
     mouseX := Fin innerWidth / Fin 2;
     mouseY := Fin innerHeight / Fin 2;
     canvas_width := Fin innerWidth;
     canvas_height := Fin innerHeight |}.

Definition resizeCanvas (innerWidth innerHeight : R) (s : state) : state :=
  {| vertices := vertices s;
     faces := faces s;
     rotationMatrix := rotationMatrix s;
     velX := velX s;
     velY := velY s;
     dragging := dragging s;
     lastX := lastX s;
     lastY := lastY s;
     mouseX := mouseX s;
     mouseY := mouseY s;
     canvas_width := Fin innerWidth;
     canvas_height := Fin innerHeight |}.

Definition mousedown (e : MouseEvent) (s : state) : state :=
  {| vertices := vertices s;
     faces := faces s;
     rotationMatrix := rotationMatrix s;
     velX := velX s;
     velY := velY s;
     dragging := true;
     lastX := Fin (clientX e);
     lastY := Fin (clientY e);
     mouseX := mouseX s;
     mouseY := mouseY s;
     canvas_width := canvas_width s;
     canvas_height := canvas_height s |}.

Definition mouseup (s : state) : state :=
  {| vertices := vertices s;
     faces := faces s;
     rotationMatrix := rotationMatrix s;
     velX := velX s;
     velY := velY s;
     dragging := false;
     lastX := lastX s;
     lastY := lastY s;
     mouseX := mouseX s;
     mouseY := mouseY s;
     canvas_width := canvas_width s;
     canvas_height := canvas_height s |}.

Definition mousemove (e : MouseEvent) (s : state) : state :=
  if dragging s then
    {| vertices := vertices s;
       faces := faces s;
       rotationMatrix := rotationMatrix s;
       velX := (Fin (clientY e) - lastY s) * dragSensitivity;
       velY := (Fin (clientX e) - lastX s) * - dragSensitivity;
       dragging := dragging s;
       lastX := Fin (clientX e);
       lastY := Fin (clientY e);
       mouseX := Fin (clientX e);
       mouseY := Fin (clientY e);
       canvas_width := canvas_width s;
       canvas_height := canvas_height s |}
  else
    {| vertices := vertices s;
       faces := faces s;
       rotationMatrix := rotationMatrix s;
       velX := velX s;
       velY := velY s;
       dragging := dragging s;
       lastX := lastX s;
       lastY := lastY s;
       mouseX := Fin (clientX e);
       mouseY := Fin (clientY e);
       canvas_width := canvas_width s;
       canvas_height := canvas_height s |}.

(** The [then] callback of [loadFirstOBJ]: the loaded model is stored. *)
Definition loaded (verts : list (list num)) (facs : list (list index))
    (s : state) : state :=
  {| vertices := verts;
     faces := facs;
     rotationMatrix := rotationMatrix s;
     velX := velX s;
     velY := velY s;
     dragging := dragging s;
     lastX := lastX s;
     lastY := lastY s;
     mouseX := mouseX s;
     mouseY := mouseY s;
     canvas_width := canvas_width s;
     canvas_height := canvas_height s |}.

(* ================================================================= *)
(** ** Main loop *)

(** *** Rotation inertia *)

(** The guard of the rotation update. *)
Definition integrating (vx vy : num) : bool :=
  (Math_abs vx >? Fin 0.0001) || (Math_abs vy >? Fin 0.0001 + Fin 0.01).

Definition rotation_inertia (s : state) : state :=
  if integrating (velX s) (velY s) then
    let rotX := rotationMatrixX (velX s) in
    let rotY := rotationMatrixY (velY s) in
    {| vertices := vertices s;
       faces := faces s;
       rotationMatrix :=
         multiplyMatrices rotY (multiplyMatrices rotX (rotationMatrix s));
       velX := velX s * rotationInertia;
       velY := velY s * rotationInertia;
       dragging := dragging s;
       lastX := lastX s;
       lastY := lastY s;
       mouseX := mouseX s;
       mouseY := mouseY s;
       canvas_width := canvas_width s;
       canvas_height := canvas_height s |}
  else s.

(** *** Project vertices *)

Definition project (m : list num) (width height : num) (v : list num)
    : list num :=
  let p := applyMatrix m v in
  let x := elt p 0 in
  let y := elt p 1 in
  let z := elt p 2 in
  let scale := perspectiveFOV / (perspectiveFOV + z + Fin 5) in
  [width / Fin 2 + x * scale; height / Fin 2 + y * scale; z].

Definition project_vertices (s : state) : list (list num) :=
  map (project (rotationMatrix s) (canvas_width s) (canvas_height s))
      (vertices s).

(** *** Faces (lines) *)

(** [projected[idx]]: [undefined] unless [idx] is an index of the array. *)
Definition lookup (projected : list (list num)) (idx : index)
    : option (list num) :=
  match idx with
  | Some z => if (0 <=? z)%Z then nth_error projected (Z.to_nat z) else None
  | None => None
  end.

(** [f.reduce((sum, idx) => sum + projected[idx][k], 0)]; reading a
    component of [undefined] throws ([None]). *)
Definition reduce_sum (projected : list (list num)) (k : nat)
    (f : list index) : option num :=
  fold_left
    (fun acc idx =>
       match acc, lookup projected idx with
       | Some sum, Some p => Some (sum + elt p k)
       | _, _ => None
       end)
    f (Some (Fin 0)).

Definition length_of (A : Type) (f : list A) : num := Fin (INR (List.length f)).

Definition average (projected : list (list num)) (k : nat) (f : list index)
    : option num :=
  match reduce_sum projected k f with
  | Some sum => Some (sum / length_of f)
  | None => None
  end.

Definition lineCursorFactor (avgX avgY mx my : num) : num :=
  let dx := avgX - mx in
  let dy := avgY - my in
  let dist := Math_sqrt (dx * dx + dy * dy) in
  Math_min [dist / lineCursorEffectRadius; Fin 1].

(** The cursor effect of a face, [cursorEffect]. *)
Definition lineCursorEffect (avgX avgY avgZ mx my : num) : num :=
  let cursorFactor := lineCursorFactor avgX avgY mx my in
  if avgZ <? lineCursorZCutoff
  then (Fin 1 - cursorFactor) * lineCursorAlphaBoost
  else Fin 0.

Definition lineAlpha (avgX avgY avgZ mx my : num) : num :=
  let baseAlpha := lineAlphaOffset in
  let cursorEffect := lineCursorEffect avgX avgY avgZ mx my in
  let alpha := baseAlpha + cursorEffect in
  Math_min [Math_max [alpha; lineMinAlpha]; lineMaxAlpha].

(** *** Vertices (dots) *)

Definition dotCursorFactor (p : list num) (mx my : num) : num :=
  let dx := elt p 0 - mx in
  let dy := elt p 1 - my in
  let dist := Math_sqrt (dx * dx + dy * dy) in
  Math_min [dist / dotCursorEffectRadius; Fin 1].

(** The pair [(cursorSizeEffect, cursorAlphaEffect)] of a dot. *)
Definition dotCursorEffects (p : list num) (mx my : num) : num * num :=
  let z := - elt p 2 in
  let cursorFactor := dotCursorFactor p mx my in
  if z >? dotCursorZCutoff
  then ((Fin 1 - cursorFactor) * dotCursorSizeBoost,
        (Fin 1 - cursorFactor) * dotCursorAlphaBoost)
  else (Fin 0, Fin 0).

(** The clamped pair [(radius, alpha)] of a dot. *)
Definition dotStyle (p : list num) (mx my : num) : num * num :=
  let z := - elt p 2 in
  let baseRadius := z * dotSizeDepthEffect + dotSizeOffset in
  let baseAlpha := z * dotAlphaDepthEffect + dotAlphaOffset in
  let '(cursorSizeEffect, cursorAlphaEffect) := dotCursorEffects p mx my in
  let radius := baseRadius + cursorSizeEffect in
  let alpha := baseAlpha + cursorAlphaEffect in
  (Math_min [Math_max [radius; dotMinSize]; dotMaxSize],
   Math_min [Math_max [alpha; dotMinAlpha]; dotMaxAlpha]).

(** *** One frame *)

(** What a frame puts on the canvas: a closed polyline per face, then a
    filled circle per vertex.  The alpha is kept as the number computed,
    before it is printed into the colour string. *)
Inductive draw : Type :=
| Stroke (alpha : num) (path : list (num * num))
| Arc (alpha : num) (x y radius : num).

Definition draw_face (s : state) (projected : list (list num))
    (f : list index) : option draw :=
  match average projected 0 f, average projected 1 f, average projected 2 f
  with
  | Some avgX, Some avgY, Some avgZ =>
      let alpha := lineAlpha avgX avgY avgZ (mouseX s) (mouseY s) in
      match f with
      | [] => None
      | _ =>
          Some (Stroke alpha
                  (flat_map
                     (fun idx =>
                        match lookup projected idx with
                        | Some p => [(elt p 0, elt p 1)]
                        | None => []
                        end) f))
      end
  | _, _, _ => None
  end.

Definition draw_vertex (s : state) (p : list num) : draw :=
  let '(radius, alpha) := dotStyle p (mouseX s) (mouseY s) in
  Arc alpha (elt p 0) (elt p 1) radius.

Fixpoint draw_faces (s : state) (projected : list (list num))
    (fs : list (list index)) : option (list draw) :=
  match fs with
  | [] => Some []
  | f :: fs' =>
      match draw_face s projected f with
      | Some d =>
          match draw_faces s projected fs' with
          | Some ds => Some (d :: ds)
          | None => None
          end
      | None => None
      end
  end.

(** One call of [animate]: the state it leaves and the frame it draws;
    [None] when a face refers to a vertex that does not exist, in which case
    the call throws after the rotation update and no further frame is
    requested. *)
Definition animate (s : state) : state * option (list draw) :=
  let s' := rotation_inertia s in
  let projected := project_vertices s' in
  (s',
   match draw_faces s' projected (faces s') with
   | Some lines => Some (lines ++ map (draw_vertex s') projected)
   | None => None
   end).

(** [k] calls of [animate] in a row, with no pointer event in between; only
    the state is followed, the frames drawn are dropped. *)
Fixpoint ticks (k : nat) (s : state) : state :=
  match k with
  | O => s
  | S k' => ticks k' (fst (animate s))
  end.

(* ================================================================= *)
(** ** Text helpers *)

(** The model text is taken as a string of ASCII characters; the white space
    of [trim], of [/\s+/] and of [parseFloat] is then tab, line feed,
    vertical tab, form feed, carriage return and space. *)

Module Text.

Local Open Scope string_scope.
Local Open Scope Z_scope.

Definition isWhiteSpace (c : ascii) : bool :=
  let n := Z.of_nat (nat_of_ascii c) in
  ((9 <=? n) && (n <=? 13)) || (n =? 32).

Definition digit_of (c : ascii) : option Z :=
  let n := Z.of_nat (nat_of_ascii c) in
  if (48 <=? n) && (n <=? 57) then Some (n - 48) else None.

Fixpoint trimStart (s : string) : string :=
  match s with
  | String c s' => if isWhiteSpace c then trimStart s' else s
  | EmptyString => EmptyString
  end.

Fixpoint trimEnd (s : string) : string :=
  match s with
  | EmptyString => EmptyString
  | String c s' =>
      match trimEnd s' with
      | EmptyString => if isWhiteSpace c then EmptyString else String c EmptyString
      | t => String c t
      end
  end.

Definition trim (s : string) : string := trimEnd (trimStart s).

Definition startsWith (p s : string) : bool := String.prefix p s.

(** [s.split(sep)] for a separator of one character. *)
Fixpoint split (sep : ascii) (s : string) : list string :=
  match s with
  | EmptyString => [EmptyString]
  | String c s' =>
      if Ascii.eqb c sep then EmptyString :: split sep s'
      else
        match split sep s' with
        | w :: ws => String c w :: ws
        | [] => [String c EmptyString]
        end
  end.

(** [s.split(/\s+/)]: the pieces between the maximal runs of white space;
    [in_run] tells that the previous character was white space. *)
Fixpoint split_ws_from (in_run : bool) (s : string) : list string :=
  match s with
  | EmptyString => [EmptyString]
  | String c s' =>
      if isWhiteSpace c then
        if in_run then split_ws_from true s'
        else EmptyString :: split_ws_from true s'
      else
        match split_ws_from false s' with
        | w :: ws => String c w :: ws
        | [] => [String c EmptyString]
        end
  end.

Definition split_ws (s : string) : list string := split_ws_from false s.

(** The longest run of decimal digits at the head of a string: the digits
    read, most significant first, and the rest. *)
Fixpoint digits (s : string) : list Z * string :=
  match s with
  | EmptyString => ([], EmptyString)
  | String c s' =>
      match digit_of c with
      | Some d => let '(ds, r) := digits s' in (d :: ds, r)
      | None => ([], s)
      end
  end.

Definition value_of (ds : list Z) : Z :=
  fold_left (fun acc d => 10 * acc + d) ds 0.

(** An optional sign: whether it is [-], and the rest. *)
Definition sign_of (s : string) : bool * string :=
  match s with
  | String "-" s' => (true, s')
  | String "+" s' => (false, s')
  | _ => (false, s)
  end.

(** What a numeric literal denotes, before it becomes a number. *)
Inductive literal : Type :=
| LNaN
| LInfinity (negative : bool)
| LDecimal (q : Q).

(** [ExponentPart]: [e] or [E], an optional sign and at least one digit; an
    incomplete exponent is not part of the literal. *)
Definition exponent_of (s : string) : Z :=
  match s with
  | String c s' =>
      if Ascii.eqb c "e" || Ascii.eqb c "E" then
        let '(negative, s'') := sign_of s' in
        match digits s'' with
        | ([], _) => 0
        | (ds, _) => if negative then - value_of ds else value_of ds
        end
      else 0
  | EmptyString => 0
  end.

(** [mantissa * 10 ^ exponent] as a rational. *)
Definition scale10 (mantissa exponent : Z) : Q :=
  if 0 <=? exponent then Qmake (mantissa * 10 ^ exponent) 1
  else Qmake mantissa (Z.to_pos (10 ^ (- exponent))).

(** The longest prefix that is a [StrUnsignedDecimalLiteral]. *)
Definition unsigned_literal (s : string) : option (bool -> literal) :=
  if startsWith "Infinity" s then Some LInfinity
  else
    let '(ds1, r1) := digits s in
    let decimal (mantissa : list Z) (fraction : nat) (rest : string) :=
      Some (fun negative : bool =>
              let m := value_of mantissa in
              LDecimal (scale10 (if negative then - m else m)
                          (exponent_of rest - Z.of_nat fraction))) in
    match r1 with
    | String "." r2 =>
        let '(ds2, r3) := digits r2 in
        match ds1, ds2 with
        | [], [] => None
        | _, _ => decimal (ds1 ++ ds2)%list (List.length ds2) r3
        end
    | _ =>
        match ds1 with
        | [] => None
        | _ => decimal ds1 O r1
        end
    end.

Definition parseFloat_literal (s : string) : literal :=
  let '(negative, rest) := sign_of (trimStart s) in
  match unsigned_literal rest with
  | Some l => l negative
  | None => LNaN
  end.

Definition num_of_literal (l : literal) : num :=
  match l with
  | LNaN => NaN
  | LInfinity negative => if negative then NInf else PInf
  | LDecimal q => Fin (Q2R q)
  end.

Definition parseFloat (s : string) : num :=
  num_of_literal (parseFloat_literal s).

(** [parseInt(s, 10)]: an integer, or [NaN] ([None]). *)
Definition parseInt (s : string) : index :=
  let '(negative, rest) := sign_of (trimStart s) in
  match digits rest with
  | ([], _) => None
  | (ds, _) => Some (if negative then - value_of ds else value_of ds)
  end.

(** [parts[i]] handed to a function that wants a string: a missing element
    is [undefined], whose string is ["undefined"]. *)
Definition part (parts : list string) (i : nat) : string :=
  nth i parts "undefined".

End Text.
Export Text.

(* ================================================================= *)
(** ** OBJ loader *)

Local Open Scope string_scope.

(** The body of the [forEach] over the lines of the text. *)
Definition parse_line (acc : list (list num) * list (list index))
    (line : string) : list (list num) * list (list index) :=
  let '(verts, facs) := acc in
  let line := trim line in
  if startsWith "v " line then
    let parts := split_ws line in
    ((verts ++ [[parseFloat (part parts 1);
                parseFloat (part parts 2);
                parseFloat (part parts 3)]])%list,
     facs)
  else if startsWith "f " line then
    let parts := skipn 1 (split_ws line) in
    (verts,
     (facs ++ [map (fun p =>
                     match parseInt (nth 0 (split "/" p) "undefined") with
                     | Some i => Some (i - 1)%Z
                     | None => None
                     end) parts])%list)
  else acc.

Definition parse_lines (text : string) : list (list num) * list (list index) :=
  fold_left parse_line (split "010" text) ([], []).

(** Center & scale. *)
Definition center_and_scale (verts : list (list num)) : list (list num) :=
  let xs := map (fun v => elt v 0) verts in
  let ys := map (fun v => elt v 1) verts in
  let zs := map (fun v => elt v 2) verts in
  let centerX := (Math_min xs + Math_max xs) / Fin 2 in
  let centerY := (Math_min ys + Math_max ys) / Fin 2 in
  let centerZ := (Math_min zs + Math_max zs) / Fin 2 in
  let maxSize :=
    Math_max [Math_max xs - Math_min xs;
              Math_max ys - Math_min ys;
              Math_max zs - Math_min zs] in
  map (fun v =>
         [((elt v 0 - centerX) / maxSize) * modelScale;
          ((elt v 1 - centerY) / maxSize) * modelScale;
          ((elt v 2 - centerZ) / maxSize) * modelScale])
      verts.

(** [loadOBJ], from the text that [fetch] delivers. *)
Definition loadOBJ (text : string) : list (list num) * list (list index) :=
  let '(verts, facs) := parse_lines text in
  (center_and_scale verts, facs).

Close Scope js_scope.
Local Close Scope string_scope.
Open Scope R_scope.

(* ================================================================= *)
(** ** Reference notions the properties are stated with *)

(** A number lies in a closed range of finite bounds. *)
Definition within (lo hi x : num) : Prop :=
  match lo, hi, x with
  | Fin l, Fin h, Fin r => l <= r <= h
  | _, _, _ => False
  end.

(** The textbook 3x3 matrices: entries by row and column, the product as a
    sum over the inner index, the elementary rotations about the X and the Y
    axis (right-handed), and orthonormality of rows and of columns. *)
Module Mat.

Definition mat : Type := nat -> nat -> R.

Definition I3 : mat := fun i j => if Nat.eqb i j then 1 else 0.

Definition mul (A B : mat) : mat :=
  fun i j => A i 0%nat * B 0%nat j + A i 1%nat * B 1%nat j + A i 2%nat * B 2%nat j.

Definition transpose (A : mat) : mat := fun i j => A j i.

Definition Rx (t : R) : mat :=
  fun i j =>
    match i, j with
    | 0%nat, 0%nat => 1
    | 1%nat, 1%nat => cos t
    | 1%nat, 2%nat => - sin t
    | 2%nat, 1%nat => sin t
    | 2%nat, 2%nat => cos t
    | _, _ => 0
    end.

Definition Ry (t : R) : mat :=
  fun i j =>
    match i, j with
    | 0%nat, 0%nat => cos t
    | 0%nat, 2%nat => sin t
    | 1%nat, 1%nat => 1
    | 2%nat, 0%nat => - sin t
    | 2%nat, 2%nat => cos t
    | _, _ => 0
    end.

(** Equality of the nine entries. *)
Definition eq3 (A B : mat) : Prop :=
  forall i j, (i < 3)%nat -> (j < 3)%nat -> A i j = B i j.

Definition orthonormal (A : mat) : Prop :=
  eq3 (mul A (transpose A)) I3 /\ eq3 (mul (transpose A) A) I3.

(** The flat row-major array of a matrix, as the program stores it. *)
Definition flat (A : mat) : list num :=
  [Fin (A 0 0); Fin (A 0 1); Fin (A 0 2);
   Fin (A 1 0); Fin (A 1 1); Fin (A 1 2);
   Fin (A 2 0); Fin (A 2 1); Fin (A 2 2)]%nat.

End Mat.

(** The array [m] is an orthonormal matrix of finite numbers. *)
Definition orthonormal (m : list num) : Prop :=
  exists A : Mat.mat, m = Mat.flat A /\ Mat.orthonormal A.

(** A vertex with finite coordinates. *)
Definition vertex (v : R * R * R) : list num :=
  let '(x, y, z) := v in [Fin x; Fin y; Fin z].

Definition axis (k : nat) (v : R * R * R) : R :=
  let '(x, y, z) := v in
  match k with 0%nat => x | 1%nat => y | _ => z end.

(** Axis-aligned bounding box of a list of points, on axis [k]: least and
    greatest coordinate, midpoint and span. *)
Definition bbox_min (k : nat) (vs : list (R * R * R)) : R :=
  MinRlist (map (axis k) vs).

Definition bbox_max (k : nat) (vs : list (R * R * R)) : R :=
  MaxRlist (map (axis k) vs).

Definition bbox_center (k : nat) (vs : list (R * R * R)) : R :=
  (bbox_min k vs + bbox_max k vs) / 2.

Definition bbox_span (k : nat) (vs : list (R * R * R)) : R :=
  bbox_max k vs - bbox_min k vs.

Definition max_span (vs : list (R * R * R)) : R :=
  Rmax (bbox_span 0 vs) (Rmax (bbox_span 1 vs) (bbox_span 2 vs)).


(** Arithmetic mean of a list of reals. *)
Definition mean (l : list R) : R := fold_left Rplus l 0 / INR (List.length l).

(** A face written with the positions of its vertices in the vertex list. *)
Definition face (f : list nat) : list index :=
  map (fun i => Some (Z.of_nat i)) f.

(** What holds of the rotation state along every run: the matrix is
    orthonormal, the velocities are finite, and so is the last pointer
    position while a drag is on. *)
Definition rotation_invariant (s : state) : Prop :=
  orthonormal (rotationMatrix s)
  /\ is_fin (velX s) /\ is_fin (velY s)
  /\ (dragging s = true -> is_fin (lastX s) /\ is_fin (lastY s)).

(** The states the page can be in: the script's initial globals, then any
    sequence of animation frames, pointer events, resizes and the arrival of
    the model. *)
Inductive reachable : state -> Prop :=
| reach_initial w h : reachable (initial w h)
| reach_animate s : reachable s -> reachable (fst (animate s))
| reach_mousedown e s : reachable s -> reachable (mousedown e s)
| reach_mouseup s : reachable s -> reachable (mouseup s)
| reach_mousemove e s : reachable s -> reachable (mousemove e s)
| reach_resize w h s : reachable s -> reachable (resizeCanvas w h s)
| reach_loaded text s :
    reachable s ->
    reachable (loaded (fst (loadOBJ text)) (snd (loadOBJ text)) s).

(* ================================================================= *)
(** ** Sample inputs *)

(** A one-pixel diagonal drag on an 800x600 window, button still down. *)
Definition dragged : state :=
  mousemove (mkMouseEvent 1 1) (mousedown (mkMouseEvent 0 0) (initial 800 600)).

(** A state coasting below the thresholds of the rotation update. *)
Definition slow : state :=
  {| vertices := []; faces := []; rotationMatrix := identityMatrix;
     velX := Fin 0.00005; velY := Fin 0;
     dragging := false; lastX := NaN; lastY := NaN;
     mouseX := Fin 400; mouseY := Fin 300;
     canvas_width := Fin 800; canvas_height := Fin 600 |}.

(** A projected dot right under the cursor, lying behind the model centre
    (its rotated z is positive). *)
Definition dot_behind : list num := [Fin 400; Fin 300; Fin 1].

Local Open Scope string_scope.

(** Two triangles sharing an edge. *)
Definition quad : string := "v 0 0 0
v 1 0 0
v 1 1 0
v 0 1 0
f 1 2 3
f 1 3 4".

(** A model of a single vertex. *)
Definition lone_vertex : string := "v 1 2 3".

(** A model whose second vertex has a token that is no number and whose
    third vertex lacks a coordinate. *)
Definition malformed : string := "v 0 0 0
v 1 abc 2
v 3 4
f 1 2 3".

Local Close Scope string_scope.

(* ================================================================= *)
(** ** The folder listings *)

(** The two scripts find their files in the listing the server gives for
    a folder: the first one the marker, with [getFirstSVG], the second one
    the model, with [loadFirstOBJ].  Both scan the listing with a regular
    expression: the literal [href=], a double quote, one or more characters
    other than a double quote that end in the extension, and a double quote;
    the characters between the quotes are the name.  The scan is modelled by
    what this expression matches: at a position where the literal and a
    quote stand, the run up to the next quote is a name if it ends in the
    extension after at least one character; the search goes on behind a
    match, and one character further where there is none.  The listing is
    taken as a string of ASCII characters, as the model text is; the
    default order of [sort] is then the order of the character codes. *)

Module Listing.

Local Open Scope string_scope.

(** The double quote. *)
Definition quote : ascii := "034"%char.

(** The literal [href=] followed by a double quote, with which both
    patterns start. *)
Definition href : string := "href=" ++ String quote EmptyString.

(** The canonical form of a character under the [i] flag: an ASCII letter
    is taken in upper case. *)
Definition upper (c : ascii) : ascii :=
  let n := nat_of_ascii c in
  if (97 <=? n)%nat && (n <=? 122)%nat then ascii_of_nat (n - 32) else c.

(** A character of the text matches a character of the pattern. *)
Definition same_char (ignoreCase : bool) (p c : ascii) : bool :=
  if ignoreCase then Ascii.eqb (upper p) (upper c) else Ascii.eqb p c.

(** A literal of the pattern at the head of a string: what follows it. *)
Fixpoint strip_literal (ignoreCase : bool) (p s : string) : option string :=
  match p with
  | EmptyString => Some s
  | String a p' =>
      match s with
      | String b s' =>
          if same_char ignoreCase a b then strip_literal ignoreCase p' s' else None
      | EmptyString => None
      end
  end.

(** The characters up to the first double quote, and the rest from that
    quote on. *)
Fixpoint until_quote (s : string) : string * string :=
  match s with
  | EmptyString => (EmptyString, EmptyString)
  | String c s' =>
      if Ascii.eqb c quote then (EmptyString, s)
      else let '(run, rest) := until_quote s' in (String c run, rest)
  end.

(** The whole of [s] is the literal [p]. *)
Definition is_literal (ignoreCase : bool) (p s : string) : bool :=
  match strip_literal ignoreCase p s with
  | Some EmptyString => true
  | _ => false
  end.

(** [run] is one or more characters followed by the extension: the part
    of the pattern between the two double quotes, on a run that holds no
    double quote. *)
Fixpoint has_extension (ignoreCase : bool) (ext run : string) : bool :=
  match run with
  | EmptyString => false
  | String _ run' =>
      is_literal ignoreCase ext run' || has_extension ignoreCase ext run'
  end.

(** A match of the pattern at the head of a string ([href=], a double
    quote, one or more characters other than the double quote ending in
    the extension, a double quote): the captured group and the length of
    the match. *)
Definition match_at (ignoreCase : bool) (ext s : string)
    : option (string * nat) :=
  match strip_literal ignoreCase href s with
  | Some rest =>
      let '(run, after) := until_quote rest in
      match after with
      | String _ _ =>
          if has_extension ignoreCase ext run
          then Some (run, (String.length href + String.length run + 1)%nat)
          else None
      | EmptyString => None
      end
  | None => None
  end.

(** [matchAll] with the global flag: the captures of the successive
    matches, each search resuming where the last match ended; [skip] counts
    the characters of a match still to be passed. *)
Fixpoint matches_from (ignoreCase : bool) (ext : string) (skip : nat)
    (s : string) : list string :=
  match s with
  | EmptyString => []
  | String _ s' =>
      match skip with
      | S k => matches_from ignoreCase ext k s'
      | O =>
          match match_at ignoreCase ext s with
          | Some (capture, len) =>
              capture :: matches_from ignoreCase ext (len - 1) s'
          | None => matches_from ignoreCase ext 0 s'
          end
      end
  end.

(** The captures of all matches of the pattern in [s]. *)
Definition matchAll (ignoreCase : bool) (ext s : string) : list string :=
  matches_from ignoreCase ext 0 s.

(** [Array.prototype.sort] without a comparator, on strings: ascending in
    the order of the character codes. *)
Fixpoint insert (x : string) (l : list string) : list string :=
  match l with
  | [] => [x]
  | y :: l' => if String.leb x y then x :: l else y :: insert x l'
  end.

(** Insertion of each element into the sorted rest. *)
Definition sort (l : list string) : list string := fold_right insert [] l.

(** [getFirstSVG], from what fetching the folder gives: [None] when the
    fetch fails or the response is not ok.  The result [None] is the
    [null] of the [catch] branch. *)
Definition getFirstSVG (response : option string) : option string :=
  match response with
  | None => None
  | Some html =>
      let svgFiles := matchAll true ".svg" html in
      match svgFiles with
      | [] => None
      | _ => nth_error (sort svgFiles) 0
      end
  end.

(** [loadFirstOBJ], with [fetch] giving the text behind a path; [None]
    when the listing names no model (the function throws). *)
Definition loadFirstOBJ (fetch : string -> string)
    : option (list (list num) * list (list index)) :=
  let text := fetch "center_object/" in
  let matches := matchAll false ".obj" text in
  match matches with
  | [] => None
  | _ => Some (loadOBJ (fetch (nth 0 (sort matches) "undefined")))
  end.

End Listing.
Export Listing.

(* ================================================================= *)
(** ** Further reference notions *)

(** The determinant of a 3x3 matrix. *)
Definition det (A : Mat.mat) : R :=
  let a i j := A i j in
  a 0%nat 0%nat * (a 1%nat 1%nat * a 2%nat 2%nat - a 1%nat 2%nat * a 2%nat 1%nat)
  - a 0%nat 1%nat * (a 1%nat 0%nat * a 2%nat 2%nat - a 1%nat 2%nat * a 2%nat 0%nat)
  + a 0%nat 2%nat * (a 1%nat 0%nat * a 2%nat 1%nat - a 1%nat 1%nat * a 2%nat 0%nat).

(** What every reachable state satisfies: the rotation matrix is a proper
    rotation and the velocities are finite, as is the last pointer position
    during a drag. *)
Definition proper (s : state) : Prop :=
  (exists A, rotationMatrix s = Mat.flat A /\ Mat.orthonormal A /\ det A = 1)
  /\ is_fin (velX s) /\ is_fin (velY s)
  /\ (dragging s = true -> is_fin (lastX s) /\ is_fin (lastY s)).


(** Clamping a real to [[lo, hi]]. *)
Definition clamp (lo hi x : R) : R := Rmin (Rmax x lo) hi.

(** The boost a dot of rotated depth coordinate [z] gets, for a cursor
    factor [cf] and a boost constant [b]. *)
Definition boost (z cf b : R) : R :=
  if Rlt_dec 0 (- z) then (1 - cf) * b else 0.

(** The angle turned by [k] integrating ticks from an angular velocity
    [w]: [w + w * 0.99 + ... + w * 0.99 ^ (k - 1)]. *)
Fixpoint coast_angle (w : R) (k : nat) : R :=
  match k with
  | O => 0
  | S k' => coast_angle w k' + w * 0.99 ^ k'
  end.

(** An index of an array of [n] elements. *)
Definition valid_index (n : nat) (idx : index) : bool :=
  match idx with
  | Some z => (0 <=? z)%Z && (z <? Z.of_nat n)%Z
  | None => false
  end.

(** A face the frame can draw on [n] vertices: it has an index, and all its
    indices are indices of the vertex array. *)
Definition drawable (n : nat) (f : list index) : bool :=
  match f with
  | [] => false
  | _ => forallb (valid_index n) f
  end.

(** A drawing command that strokes a face outline. *)
Definition is_stroke (d : draw) : bool :=
  match d with Stroke _ _ => true | Arc _ _ _ _ => false end.

(** The decimal numeral of a natural number. *)
Definition decimal (n : nat) : string :=
  NilEmpty.string_of_uint (Nat.to_uint n).


(** All characters of a string satisfy a test. *)
Fixpoint all_chars (P : ascii -> bool) (s : string) : bool :=
  match s with
  | EmptyString => true
  | String c s' => P c && all_chars P s'
  end.

(** A decimal digit. *)
Definition is_digit (c : ascii) : bool :=
  match digit_of c with Some _ => true | None => false end.












(** A character other than [x]. *)
Definition not_char (x c : ascii) : bool := negb (Ascii.eqb c x).



(** An entry of a directory listing: a link to [name], labelled with it. *)
Definition entry (name : string) : string :=
  ("<a " ++ href ++ name ++ String quote (">" ++ name ++ "</a>" ++ String "010" EmptyString))%string.

(** A directory listing: one entry per name. *)
Fixpoint listing (names : list string) : string :=
  match names with
  | [] => EmptyString
  | name :: names' => (entry name ++ listing names')%string
  end.

(** A string that holds no double quote. *)
Definition no_quote (s : string) : bool := all_chars (not_char quote) s.

(** What follows the closing quote of a link in an entry. *)
Definition label (n : string) : string :=
  (">" ++ n ++ "</a>" ++ String "010" EmptyString)%string.

(* ================================================================= *)
(** ** Further sample inputs *)

(** A horizontal drag of fifty pixels. *)
Definition swiped : state :=
  mousemove (mkMouseEvent 50 0) (mousedown (mkMouseEvent 0 0) (initial 800 600)).

(** A server with a folder of two models, of which [cube.obj] is [quad]. *)
Definition served (path : string) : string :=
  if String.eqb path "center_object/" then listing ["teapot.obj"; "cube.obj"]%string
  else if String.eqb path "cube.obj" then quad
  else EmptyString.

(* ================================================================= *)
(** ** Arithmetic of numbers *)

Section NumFacts.

Lemma Rltb_true (x y : R) : Rltb x y = true <-> x < y.
Proof.
  unfold Rltb; destruct (Rlt_dec x y); split; intros; try easy.
Qed.

Lemma Rltb_false (x y : R) : Rltb x y = false <-> y <= x.
Proof.
  unfold Rltb; destruct (Rlt_dec x y); split; intros; try easy; lra.
Qed.

Lemma Rsign_pos (r : R) : 0 < r -> Rsign r = Gt.
Proof. intros H; unfold Rsign; destruct (Rlt_dec 0 r); [reflexivity | lra]. Qed.

Lemma Rsign_neg (r : R) : r < 0 -> Rsign r = Lt.
Proof.
  intros H; unfold Rsign.
  destruct (Rlt_dec 0 r); [lra |]. destruct (Rlt_dec r 0); [reflexivity | lra].
Qed.

Lemma Rsign_zero : Rsign 0 = Eq.
Proof.
  unfold Rsign.
  destruct (Rlt_dec 0 0); [lra |]. destruct (Rlt_dec 0 0); [lra | reflexivity].
Qed.

Lemma Fin_inj (a b : R) : Fin a = Fin b -> a = b.
Proof. intros H; now injection H. Qed.

Lemma div_fin (a b : R) : b <> 0 -> (Fin a / Fin b)%js = Fin (a / b).
Proof.
  intros Hb; unfold div.
  destruct (Rtotal_order b 0) as [H | [H | H]]; [| contradiction |].
  - now rewrite (Rsign_neg H).
  - now rewrite (Rsign_pos H).
Qed.

Lemma div_zero_zero : (Fin 0 / Fin 0)%js = NaN.
Proof. unfold div; now rewrite Rsign_zero. Qed.

Lemma div_pinf (b : R) : 0 < b -> (PInf / Fin b)%js = PInf.
Proof. intros H; unfold div; now rewrite (Rsign_pos H). Qed.

Lemma sqrt_fin (r : R) : 0 <= r -> Math_sqrt (Fin r) = Fin (sqrt r).
Proof. intros H; unfold Math_sqrt; destruct (Rlt_dec r 0); [lra | reflexivity]. Qed.

Lemma gt_fin (x y : R) : (Fin x >? Fin y)%js = true <-> y < x.
Proof. apply Rltb_true. Qed.

Lemma gt_fin_false (x y : R) : (Fin x >? Fin y)%js = false <-> x <= y.
Proof. apply Rltb_false. Qed.

Lemma lt_fin (x y : R) : (Fin x <? Fin y)%js = true <-> x < y.
Proof. apply Rltb_true. Qed.

Lemma lt_fin_false (x y : R) : (Fin x <? Fin y)%js = false <-> y <= x.
Proof. apply Rltb_false. Qed.

Lemma min_fin (a b : R) : Math_min [Fin a; Fin b] = Fin (Rmin a b).
Proof.
  unfold Math_min; simpl. unfold Rltb, Rmin.
  destruct (Rlt_dec b a), (Rle_dec a b); try reflexivity; f_equal; lra.
Qed.

Lemma max_fin (a b : R) : Math_max [Fin a; Fin b] = Fin (Rmax a b).
Proof.
  unfold Math_max; simpl. unfold Rltb, Rmax.
  destruct (Rlt_dec a b), (Rle_dec a b); try reflexivity; f_equal; lra.
Qed.

(** Clamping anything but [NaN] lands in the range. *)
Lemma clamp_within (v : num) (lo hi : R) :
  is_nan v = false -> lo <= hi ->
  within (Fin lo) (Fin hi) (Math_min [Math_max [v; Fin lo]; Fin hi]).
Proof.
  intros Hv Hle. destruct v as [| | | r]; try discriminate.
  - (* -Infinity *)
    change (Math_max [NInf; Fin lo]) with (Fin lo).
    rewrite min_fin. simpl. unfold Rmin; destruct (Rle_dec lo hi); lra.
  - (* +Infinity *)
    change (Math_max [PInf; Fin lo]) with PInf.
    change (Math_min [PInf; Fin hi]) with (Fin hi). simpl; lra.
  - rewrite max_fin, min_fin. simpl.
    unfold Rmin, Rmax.
    destruct (Rle_dec r lo); destruct (Rle_dec _ hi); lra.
Qed.

(** A [NaN] is not clamped: it goes through [Math.max] and [Math.min]. *)
Lemma clamp_of_NaN (lo hi : num) : Math_min [Math_max [NaN; lo]; hi] = NaN.
Proof. reflexivity. Qed.

End NumFacts.

(* ================================================================= *)
(** ** Matrix helpers against the textbook matrices *)

Section MatrixFacts.

Lemma identityMatrix_flat : identityMatrix = Mat.flat Mat.I3.
Proof. reflexivity. Qed.

Lemma rotationMatrixX_flat (t : R) :
  rotationMatrixX (Fin t) = Mat.flat (Mat.Rx t).
Proof. reflexivity. Qed.

Lemma rotationMatrixY_flat (t : R) :
  rotationMatrixY (Fin t) = Mat.flat (Mat.Ry t).
Proof. reflexivity. Qed.

Lemma multiplyMatrices_flat (A B : Mat.mat) :
  multiplyMatrices (Mat.flat A) (Mat.flat B) = Mat.flat (Mat.mul A B).
Proof. reflexivity. Qed.

Lemma applyMatrix_flat (A : Mat.mat) (x y z : R) :
  applyMatrix (Mat.flat A) [Fin x; Fin y; Fin z]
  = [Fin (A 0 0 * x + A 0 1 * y + A 0 2 * z);
     Fin (A 1 0 * x + A 1 1 * y + A 1 2 * z);
     Fin (A 2 0 * x + A 2 1 * y + A 2 2 * z)]%nat.
Proof. reflexivity. Qed.

Lemma eq3_intro (A B : Mat.mat) :
  (A 0 0 = B 0 0 -> A 0 1 = B 0 1 -> A 0 2 = B 0 2 ->
   A 1 0 = B 1 0 -> A 1 1 = B 1 1 -> A 1 2 = B 1 2 ->
   A 2 0 = B 2 0 -> A 2 1 = B 2 1 -> A 2 2 = B 2 2 -> Mat.eq3 A B)%nat.
Proof.
  intros H00 H01 H02 H10 H11 H12 H20 H21 H22 i j Hi Hj.
  destruct i as [| [| [| i]]]; try lia;
    destruct j as [| [| [| j]]]; try lia; assumption.
Qed.

Lemma eq3_elim (A B : Mat.mat) :
  Mat.eq3 A B ->
  (A 0 0 = B 0 0 /\ A 0 1 = B 0 1 /\ A 0 2 = B 0 2 /\
   A 1 0 = B 1 0 /\ A 1 1 = B 1 1 /\ A 1 2 = B 1 2 /\
   A 2 0 = B 2 0 /\ A 2 1 = B 2 1 /\ A 2 2 = B 2 2)%nat.
Proof. intros H; repeat split; apply H; lia. Qed.

Lemma flat_inj (A B : Mat.mat) : Mat.flat A = Mat.flat B -> Mat.eq3 A B.
Proof.
  intros H; injection H; intros; apply eq3_intro; assumption.
Qed.

Lemma orthonormal_I3 : Mat.orthonormal Mat.I3.
Proof.
  split; apply eq3_intro; unfold Mat.mul, Mat.transpose, Mat.I3; simpl; ring.
Qed.

Lemma orthonormal_Rx (t : R) : Mat.orthonormal (Mat.Rx t).
Proof.
  pose proof (sin2_cos2 t) as H; unfold Rsqr in H.
  split; apply eq3_intro; unfold Mat.mul, Mat.transpose, Mat.I3; simpl; nra.
Qed.

Lemma orthonormal_Ry (t : R) : Mat.orthonormal (Mat.Ry t).
Proof.
  pose proof (sin2_cos2 t) as H; unfold Rsqr in H.
  split; apply eq3_intro; unfold Mat.mul, Mat.transpose, Mat.I3; simpl; nra.
Qed.

(** Rows: [(AB)(AB)^T = A (B B^T) A^T]; columns alike. *)
Lemma orthonormal_mul (A B : Mat.mat) :
  Mat.orthonormal A -> Mat.orthonormal B -> Mat.orthonormal (Mat.mul A B).
Proof.
  intros [HA1 HA2] [HB1 HB2].
  apply eq3_elim in HA1, HA2, HB1, HB2.
  unfold Mat.mul, Mat.transpose, Mat.I3 in *; simpl in *.
  decompose [and] HA1; decompose [and] HA2.
  decompose [and] HB1; decompose [and] HB2.
  clear HA1 HA2 HB1 HB2.
  split; apply eq3_intro; unfold Mat.mul, Mat.transpose, Mat.I3; simpl; nsatz.
Qed.

End MatrixFacts.

(* ================================================================= *)
(** ** Rotation state *)

Section RotationFacts.

Lemma integrating_fin (vx vy : R) :
  integrating (Fin vx) (Fin vy) = true
  <-> 0.0001 < Rabs vx \/ 0.0001 + 0.01 < Rabs vy.
Proof.
  unfold integrating. rewrite orb_true_iff. simpl.
  now rewrite !Rltb_true.
Qed.

Lemma integrating_fin_false (vx vy : R) :
  integrating (Fin vx) (Fin vy) = false
  <-> Rabs vx <= 0.0001 /\ Rabs vy <= 0.0101.
Proof.
  unfold integrating. rewrite orb_false_iff. simpl.
  rewrite !Rltb_false. split; intros [H1 H2]; split; lra.
Qed.

Lemma animate_state (s : state) : fst (animate s) = rotation_inertia s.
Proof. reflexivity. Qed.

Lemma ticks_last (k : nat) (s : state) :
  ticks (S k) s = rotation_inertia (ticks k s).
Proof.
  revert s; induction k as [| k IH]; intros s; [reflexivity |].
  change (ticks (S (S k)) s) with (ticks (S k) (fst (animate s))).
  now rewrite IH.
Qed.

Lemma rotation_inertia_frozen (s : state) :
  integrating (velX s) (velY s) = false -> rotation_inertia s = s.
Proof. intros H; unfold rotation_inertia; now rewrite H. Qed.

(** Once a tick finds the state frozen, the run stays where it is. *)
Lemma frozen_forever (s : state) (k : nat) :
  integrating (velX (ticks k s)) (velY (ticks k s)) = false ->
  forall n, (k <= n)%nat -> ticks n s = ticks k s.
Proof.
  intros F n Hn. induction Hn as [| n Hn IH]; [reflexivity |].
  rewrite ticks_last, IH. now apply rotation_inertia_frozen.
Qed.

Lemma rotation_inertia_velX (s : state) :
  integrating (velX s) (velY s) = true ->
  velX (rotation_inertia s) = (velX s * rotationInertia)%js.
Proof. intros H; unfold rotation_inertia; now rewrite H. Qed.

Lemma rotation_inertia_velY (s : state) :
  integrating (velX s) (velY s) = true ->
  velY (rotation_inertia s) = (velY s * rotationInertia)%js.
Proof. intros H; unfold rotation_inertia; now rewrite H. Qed.

Lemma rotation_inertia_matrix (s : state) :
  integrating (velX s) (velY s) = true ->
  rotationMatrix (rotation_inertia s)
  = multiplyMatrices (rotationMatrixY (velY s))
      (multiplyMatrices (rotationMatrixX (velX s)) (rotationMatrix s)).
Proof. intros H; unfold rotation_inertia; now rewrite H. Qed.

(** A tick never makes a finite velocity larger. *)
Lemma rotation_inertia_shrinks (s : state) (vx vy : R) :
  velX s = Fin vx -> velY s = Fin vy ->
  exists vx' vy',
    velX (rotation_inertia s) = Fin vx' /\ velY (rotation_inertia s) = Fin vy'
    /\ Rabs vx' <= Rabs vx /\ Rabs vy' <= Rabs vy.
Proof.
  intros Hx Hy.
  destruct (integrating (velX s) (velY s)) eqn:E.
  - exists (vx * 0.99), (vy * 0.99).
    rewrite (rotation_inertia_velX _ E), (rotation_inertia_velY _ E), Hx, Hy.
    repeat split; rewrite Rabs_mult, (Rabs_pos_eq 0.99) by lra;
      pose proof (Rabs_pos vx); pose proof (Rabs_pos vy); nra.
  - exists vx, vy. rewrite (rotation_inertia_frozen _ E).
    repeat split; auto; lra.
Qed.

Lemma ticks_finite (k : nat) (s : state) (vx vy : R) :
  velX s = Fin vx -> velY s = Fin vy ->
  exists a b, velX (ticks k s) = Fin a /\ velY (ticks k s) = Fin b.
Proof.
  intros Hx Hy; induction k as [| k (a & b & Ha & Hb)].
  - now exists vx, vy.
  - rewrite ticks_last.
    destruct (rotation_inertia_shrinks _ Ha Hb) as (a' & b' & Ha' & Hb' & _).
    now exists a', b'.
Qed.

End RotationFacts.

(* ================================================================= *)
(** ** The rotation state along a run *)

Section RunFacts.

Lemma sin_small_pos : 0 < sin 0.01.
Proof.
  apply sin_gt_0; [lra |]. pose proof PI2_1. lra.
Qed.

Lemma noncommuting (A : Mat.mat) (a b : R) :
  Mat.orthonormal A -> sin a * sin b <> 0 ->
  Mat.flat (Mat.mul (Mat.Ry b) (Mat.mul (Mat.Rx a) A))
  <> Mat.flat (Mat.mul (Mat.Rx a) (Mat.mul (Mat.Ry b) A)).
Proof.
  intros [HA1 HA2] Hs E. apply Hs. clear Hs.
  apply flat_inj, eq3_elim in E.
  apply eq3_elim in HA1. clear HA2.
  unfold Mat.mul, Mat.transpose, Mat.I3, Mat.Rx, Mat.Ry in *; simpl in *.
  decompose [and] HA1; decompose [and] E. clear HA1 E.
  set (s := sin a) in *. set (c := cos a) in *.
  set (S := sin b) in *. set (C := cos b) in *.
  clearbody s c S C.
  nsatz.
Qed.

Lemma is_fin_inv (a : num) : is_fin a -> exists r, a = Fin r.
Proof. destruct a; simpl; try contradiction. intros _; now exists r. Qed.

Lemma rotation_inertia_invariant (s : state) :
  rotation_invariant s -> rotation_invariant (rotation_inertia s).
Proof.
  intros (Ho & Hx & Hy & Hd).
  destruct (integrating (velX s) (velY s)) eqn:E;
    [| now rewrite (rotation_inertia_frozen _ E)].
  destruct (is_fin_inv _ Hx) as [vx Ex], (is_fin_inv _ Hy) as [vy Ey].
  destruct Ho as (A & EA & HA).
  unfold rotation_invariant.
  rewrite (rotation_inertia_matrix _ E), (rotation_inertia_velX _ E),
    (rotation_inertia_velY _ E), Ex, Ey, EA.
  split; [| split; [exact I | split; [exact I |]]].
  - exists (Mat.mul (Mat.Ry vy) (Mat.mul (Mat.Rx vx) A)). split.
    + reflexivity.
    + apply orthonormal_mul; [apply orthonormal_Ry |].
      apply orthonormal_mul; [apply orthonormal_Rx | exact HA].
  - unfold rotation_inertia; rewrite E; exact Hd.
Qed.

Lemma reachable_invariant (s : state) : reachable s -> rotation_invariant s.
Proof.
  induction 1 as [w h | s _ IH | e s _ IH | s _ IH | e s _ IH
                 | w h s _ IH | text s _ IH].
  - repeat split; simpl; try exact I; try discriminate.
    exists Mat.I3; split; [reflexivity | apply orthonormal_I3].
  - rewrite animate_state. now apply rotation_inertia_invariant.
  - destruct IH as (Ho & Hx & Hy & _). repeat split; simpl; auto.
  - destruct IH as (Ho & Hx & Hy & _). repeat split; simpl; auto; discriminate.
  - destruct IH as (Ho & Hx & Hy & Hd). unfold mousemove.
    destruct (dragging s) eqn:D.
    + destruct (Hd eq_refl) as [Lx Ly].
      destruct (is_fin_inv _ Lx) as [lx Ex], (is_fin_inv _ Ly) as [ly Ey].
      repeat split; simpl; auto; rewrite ?Ex, ?Ey; exact I.
    + split; [exact Ho | split; [exact Hx | split; [exact Hy |]]].
      simpl; intros D'; congruence.
  - exact IH.
  - exact IH.
Qed.

Lemma dragged_velX : velX dragged = Fin 0.01.
Proof. simpl. f_equal. lra. Qed.

Lemma dragged_velY : velY dragged = Fin (-0.01).
Proof. simpl. f_equal. lra. Qed.

Lemma dragged_integrating : integrating (velX dragged) (velY dragged) = true.
Proof.
  rewrite dragged_velX, dragged_velY. apply integrating_fin.
  left. rewrite Rabs_pos_eq; lra.
Qed.

End RunFacts.

(** *** Coasting after a drag *)

Section Coasting.

Lemma pow_ratio (a b : Z) (n : nat) :
  (IZR a / IZR b) ^ n = IZR (a ^ Z.of_nat n) / IZR (b ^ Z.of_nat n).
Proof.
  unfold Rdiv. rewrite Rpow_mult_distr, pow_inv, !pow_IZR. reflexivity.
Qed.

(** [0.99 ^ 458] is still above [0.01], [0.99 ^ 459] no longer. *)
Lemma inertia_pow_458 : 0.01 < 0.99 ^ 458.
Proof.
  replace 0.99 with (IZR 99 / IZR 100) by lra. rewrite pow_ratio.
  assert (P : 0 < IZR (100 ^ Z.of_nat 458))
    by (apply IZR_lt; vm_compute; reflexivity).
  apply Rmult_lt_reg_r with (IZR (100 ^ Z.of_nat 458)); [exact P |].
  unfold Rdiv. rewrite Rmult_assoc, Rinv_l, Rmult_1_r by lra.
  apply Rmult_lt_reg_l with (IZR 100); [lra |].
  replace (IZR 100 * (0.01 * IZR (100 ^ Z.of_nat 458)))
    with (IZR (100 ^ Z.of_nat 458)) by lra.
  rewrite <- mult_IZR. apply IZR_lt. vm_compute. reflexivity.
Qed.

Lemma inertia_pow_459 : 0.99 ^ 459 < 0.01.
Proof.
  replace 0.99 with (IZR 99 / IZR 100) by lra. rewrite pow_ratio.
  assert (P : 0 < IZR (100 ^ Z.of_nat 459))
    by (apply IZR_lt; vm_compute; reflexivity).
  apply Rmult_lt_reg_r with (IZR (100 ^ Z.of_nat 459)); [exact P |].
  unfold Rdiv. rewrite Rmult_assoc, Rinv_l, Rmult_1_r by lra.
  apply Rmult_lt_reg_l with (IZR 100); [lra |].
  replace (IZR 100 * (0.01 * IZR (100 ^ Z.of_nat 459)))
    with (IZR (100 ^ Z.of_nat 459)) by lra.
  rewrite <- mult_IZR. apply IZR_lt. vm_compute. reflexivity.
Qed.

Lemma inertia_pow_pos (n : nat) : 0 < 0.99 ^ n.
Proof. apply pow_lt; lra. Qed.

Lemma inertia_pow_decreasing (j k : nat) : (j <= k)%nat -> 0.99 ^ k <= 0.99 ^ j.
Proof.
  intros H. replace k with (j + (k - j))%nat by lia. rewrite pow_add.
  assert (0.99 ^ (k - j) <= 1).
  { rewrite <- (pow1 (k - j)). apply pow_incr; lra. }
  pose proof (inertia_pow_pos j). nra.
Qed.

(** The velocities along a run whose ticks all integrate. *)
Lemma ticks_closed_form (k : nat) (s : state) (v0 w0 : R) :
  velX s = Fin v0 -> velY s = Fin w0 ->
  (forall j, (j < k)%nat ->
     integrating (Fin (v0 * 0.99 ^ j)) (Fin (w0 * 0.99 ^ j)) = true) ->
  velX (ticks k s) = Fin (v0 * 0.99 ^ k)
  /\ velY (ticks k s) = Fin (w0 * 0.99 ^ k).
Proof.
  intros Hx Hy Hint. induction k as [| k IH].
  - simpl. rewrite Hx, Hy. split; f_equal; lra.
  - destruct IH as [IHx IHy]; [intros j Hj; apply Hint; lia |].
    assert (E : integrating (velX (ticks k s)) (velY (ticks k s)) = true)
      by (rewrite IHx, IHy; apply Hint; lia).
    rewrite ticks_last.
    rewrite (rotation_inertia_velX _ E), (rotation_inertia_velY _ E).
    rewrite IHx, IHy. split; simpl; f_equal; ring.
Qed.

(** After the one-pixel drag the rotation coasts for 459 ticks and then
    stops decaying. *)
Lemma dragged_coasts :
  velX (ticks 459 dragged) = Fin (0.01 * 0.99 ^ 459)
  /\ velX (ticks 460 dragged) = Fin (0.01 * 0.99 ^ 459).
Proof.
  destruct (@ticks_closed_form 459 dragged 0.01 (-0.01)
              dragged_velX dragged_velY) as [Hx Hy].
  { intros j Hj. apply integrating_fin. left.
    pose proof (inertia_pow_pos j).
    rewrite Rabs_pos_eq by nra.
    assert (0.99 ^ 458 <= 0.99 ^ j) by (apply inertia_pow_decreasing; lia).
    pose proof inertia_pow_458. nra. }
  split; [exact Hx |].
  rewrite ticks_last, rotation_inertia_frozen; [exact Hx |].
  rewrite Hx, Hy. apply integrating_fin_false.
  pose proof (inertia_pow_pos 459) as P. pose proof inertia_pow_459 as Q.
  set (p := 0.99 ^ 459) in *. clearbody p.
  rewrite (Rabs_pos_eq (0.01 * p)) by nra.
  rewrite (Rabs_left (-0.01 * p)) by nra. split; nra.
Qed.

End Coasting.

(* ================================================================= *)
(** ** Style resolver *)

Section StyleFacts.

Lemma sub_not_nan (a : num) (m : R) :
  is_nan a = false -> is_nan (a - Fin m)%js = false.
Proof. destruct a; simpl; intros; congruence. Qed.

Lemma add_fin_not_nan (a : num) (e : R) :
  is_nan a = false -> is_nan (a + Fin e)%js = false.
Proof. destruct a; simpl; intros; congruence. Qed.

Lemma depth_term_not_nan (z : num) (k o : R) :
  is_nan z = false -> 0 < k -> is_nan (- z * Fin k + Fin o)%js = false.
Proof.
  intros Hz Hk. destruct z as [| | | r]; try discriminate; simpl;
    rewrite ?(Rsign_pos Hk); reflexivity.
Qed.

(** The cursor factor [min(sqrt(dx*dx + dy*dy) / radius, 1)] is a finite
    number of [0, 1] as soon as the offsets are numbers. *)
Lemma cursor_factor_range (dx dy : num) (radius : R) :
  is_nan dx = false -> is_nan dy = false -> 0 < radius ->
  exists c,
    Math_min [(Math_sqrt (dx * dx + dy * dy) / Fin radius)%js; Fin 1] = Fin c
    /\ 0 <= c <= 1.
Proof.
  intros Hx Hy Hr.
  assert (Inf : Math_min [(PInf / Fin radius)%js; Fin 1] = Fin 1)
    by now rewrite (div_pinf Hr).
  destruct dx as [| | | a]; try discriminate;
    destruct dy as [| | | b]; try discriminate;
    try (exists 1; split; [exact Inf | lra]).
  exists (Rmin (sqrt (a * a + b * b) / radius) 1).
  assert (0 <= a * a + b * b) by nra.
  change (Fin a * Fin a + Fin b * Fin b)%js with (Fin (a * a + b * b)).
  rewrite sqrt_fin, div_fin, min_fin by lra. split; [reflexivity |].
  assert (0 <= sqrt (a * a + b * b) / radius).
  { apply Rmult_le_pos; [apply sqrt_pos | left; now apply Rinv_0_lt_compat]. }
  unfold Rmin; destruct (Rle_dec _ 1); lra.
Qed.

Lemma cursor_factor_fin (a b radius : R) :
  0 < radius ->
  Math_min [(Math_sqrt (Fin a * Fin a + Fin b * Fin b) / Fin radius)%js; Fin 1]
  = Fin (Rmin (sqrt (a * a + b * b) / radius) 1).
Proof.
  intros Hr. assert (0 <= a * a + b * b) by nra.
  change (Fin a * Fin a + Fin b * Fin b)%js with (Fin (a * a + b * b)).
  now rewrite sqrt_fin, div_fin, min_fin by lra.
Qed.

Lemma dotCursorFactor_fin (x y : R) (z : num) (mx my : R) :
  dotCursorFactor [Fin x; Fin y; z] (Fin mx) (Fin my)
  = Fin (Rmin (sqrt ((x - mx) * (x - mx) + (y - my) * (y - my)) / 150) 1).
Proof.
  unfold dotCursorFactor, dotCursorEffectRadius. cbv zeta. cbn [elt nth].
  change (Fin x - Fin mx)%js with (Fin (x - mx)).
  change (Fin y - Fin my)%js with (Fin (y - my)).
  apply cursor_factor_fin; lra.
Qed.

Lemma dotCursorEffects_fin (x y z : num) (mx my : R) :
  is_nan x = false -> is_nan y = false ->
  exists e1 e2, dotCursorEffects [x; y; z] (Fin mx) (Fin my) = (Fin e1, Fin e2).
Proof.
  intros Hx Hy. unfold dotCursorEffects, dotCursorFactor. cbv zeta. cbn [elt nth].
  destruct (@cursor_factor_range (x - Fin mx)%js (y - Fin my)%js 150)
    as (c & Ec & _); [now apply sub_not_nan | now apply sub_not_nan | lra |].
  unfold dotCursorEffectRadius. rewrite Ec.
  destruct (- z >? dotCursorZCutoff)%js; simpl; eauto.
Qed.

Lemma lineCursorEffect_fin (ax ay az : num) (mx my : R) :
  is_nan ax = false -> is_nan ay = false ->
  exists e, lineCursorEffect ax ay az (Fin mx) (Fin my) = Fin e.
Proof.
  intros Hx Hy. unfold lineCursorEffect, lineCursorFactor. cbv zeta.
  destruct (@cursor_factor_range (ax - Fin mx)%js (ay - Fin my)%js 100)
    as (c & Ec & _); [now apply sub_not_nan | now apply sub_not_nan | lra |].
  unfold lineCursorEffectRadius. rewrite Ec.
  destruct (az <? lineCursorZCutoff)%js; simpl; eauto.
Qed.

End StyleFacts.


(* ================================================================= *)
(** ** Faces *)

Section FaceFacts.

Lemma elt_vertex (v : R * R * R) (k : nat) :
  (k < 3)%nat -> elt (vertex v) k = Fin (axis k v).
Proof.
  destruct v as [[x y] z]. intros Hk.
  destruct k as [| [| [| k]]]; try lia; reflexivity.
Qed.

Lemma lookup_face (pts : list (R * R * R)) (i : nat) :
  (i < List.length pts)%nat ->
  lookup (map vertex pts) (Some (Z.of_nat i))
  = Some (vertex (nth i pts (0, 0, 0))).
Proof.
  intros Hi. unfold lookup.
  destruct (Z.leb_spec 0 (Z.of_nat i)); [| lia].
  rewrite Nat2Z.id, nth_error_map.
  rewrite (nth_error_nth' pts (0, 0, 0) Hi). reflexivity.
Qed.

Lemma reduce_sum_face (pts : list (R * R * R)) (k : nat) (f : list nat) :
  (k < 3)%nat ->
  (forall i, In i f -> (i < List.length pts)%nat) ->
  forall a,
    fold_left
      (fun acc idx =>
         match acc, lookup (map vertex pts) idx with
         | Some sum, Some p => Some (sum + elt p k)%js
         | _, _ => None
         end)
      (face f) (Some (Fin a))
    = Some (Fin (fold_left Rplus
                   (map (fun i => axis k (nth i pts (0, 0, 0))) f) a)).
Proof.
  intros Hk. induction f as [| i f IH]; intros Hf a; [reflexivity |].
  unfold face; cbn [map fold_left]; fold (face f).
  rewrite lookup_face by (apply Hf; now left).
  rewrite elt_vertex by assumption.
  change (Fin a + Fin (axis k (nth i pts (0, 0, 0))))%js
    with (Fin (a + axis k (nth i pts (0, 0, 0)))).
  apply IH. intros j Hj; apply Hf; now right.
Qed.

Lemma average_face (pts : list (R * R * R)) (k : nat) (f : list nat) :
  (k < 3)%nat -> f <> [] ->
  (forall i, In i f -> (i < List.length pts)%nat) ->
  average (map vertex pts) k (face f)
  = Some (Fin (mean (map (fun i => axis k (nth i pts (0, 0, 0))) f))).
Proof.
  intros Hk Hne Hf. unfold average, reduce_sum.
  rewrite (@reduce_sum_face pts k f Hk Hf). unfold length_of, mean, face.
  rewrite !length_map, div_fin; [reflexivity |].
  destruct f; [contradiction |]. apply not_0_INR. simpl; lia.
Qed.

End FaceFacts.


(* ================================================================= *)
(** ** Bounding boxes and the model loader *)

Section BoundingBoxFacts.

Lemma MinRlist_cons (a b : R) (l : list R) :
  MinRlist (a :: b :: l) = Rmin a (MinRlist (b :: l)).
Proof. reflexivity. Qed.

Lemma MaxRlist_cons (a b : R) (l : list R) :
  MaxRlist (a :: b :: l) = Rmax a (MaxRlist (b :: l)).
Proof. reflexivity. Qed.







(** [Math.min] and [Math.max] over finite numbers. *)
Lemma fold_min2_fin (l : list R) (a : R) :
  fold_left min2 (map Fin l) (Fin a) = Fin (MinRlist (a :: l)).
Proof.
  revert a; induction l as [| b l IH]; intros a; [reflexivity |].
  cbn [map fold_left].
  replace (min2 (Fin a) (Fin b)) with (Fin (Rmin a b)).
  - rewrite IH, MinRlist_cons. f_equal.
    destruct l as [| c l]; [reflexivity |].
    rewrite !MinRlist_cons. symmetry; apply Rmin_assoc.
  - simpl. unfold Rltb, Rmin.
    destruct (Rlt_dec b a), (Rle_dec a b); try reflexivity; f_equal; lra.
Qed.

Lemma fold_max2_fin (l : list R) (a : R) :
  fold_left max2 (map Fin l) (Fin a) = Fin (MaxRlist (a :: l)).
Proof.
  revert a; induction l as [| b l IH]; intros a; [reflexivity |].
  cbn [map fold_left].
  replace (max2 (Fin a) (Fin b)) with (Fin (Rmax a b)).
  - rewrite IH, MaxRlist_cons. f_equal.
    destruct l as [| c l]; [reflexivity |].
    rewrite !MaxRlist_cons. symmetry; apply Rmax_assoc.
  - simpl. unfold Rltb, Rmax.
    destruct (Rlt_dec a b), (Rle_dec a b); try reflexivity; f_equal; lra.
Qed.

Lemma Math_min_fin (l : list R) :
  l <> [] -> Math_min (map Fin l) = Fin (MinRlist l).
Proof.
  destruct l as [| a l]; [contradiction | intros _].
  unfold Math_min. cbn [map fold_left].
  change (min2 PInf (Fin a)) with (Fin a). apply fold_min2_fin.
Qed.

Lemma Math_max_fin (l : list R) :
  l <> [] -> Math_max (map Fin l) = Fin (MaxRlist l).
Proof.
  destruct l as [| a l]; [contradiction | intros _].
  unfold Math_max. cbn [map fold_left].
  change (max2 NInf (Fin a)) with (Fin a). apply fold_max2_fin.
Qed.

Lemma coordinates_of_vertices (k : nat) (vs : list (R * R * R)) :
  (k < 3)%nat ->
  map (fun v => elt v k) (map vertex vs) = map Fin (map (axis k) vs).
Proof.
  intros Hk. rewrite !map_map. apply map_ext. intros [[x y] z].
  destruct k as [| [| [| k]]]; try lia; reflexivity.
Qed.

Lemma bbox_span_nonneg (k : nat) (vs : list (R * R * R)) :
  vs <> [] -> 0 <= bbox_span k vs.
Proof.
  unfold bbox_span, bbox_max, bbox_min.
  destruct vs as [| v vs]; [contradiction | intros _].
  set (l := map (axis k) (v :: vs)).
  assert (H : In (axis k v) l) by now left.
  pose proof (MinRlist_P1 l _ H). pose proof (MaxRlist_P1 l _ H). lra.
Qed.


(** What [loadOBJ]'s normalization computes on vertices with finite
    coordinates; the division by the largest span is still the program's. *)
Lemma center_and_scale_vertices (vs : list (R * R * R)) :
  vs <> [] ->
  center_and_scale (map vertex vs)
  = map (fun v =>
           [(Fin (axis 0 v - bbox_center 0 vs) / Fin (max_span vs) * modelScale)%js;
            (Fin (axis 1 v - bbox_center 1 vs) / Fin (max_span vs) * modelScale)%js;
            (Fin (axis 2 v - bbox_center 2 vs) / Fin (max_span vs) * modelScale)%js])
        vs.
Proof.
  intros Hne. unfold center_and_scale.
  rewrite !coordinates_of_vertices by lia.
  assert (N : forall k, map (axis k) vs <> [])
    by (intros k E; apply map_eq_nil in E; contradiction).
  rewrite !Math_min_fin, !Math_max_fin by apply N.
  fold (bbox_min 0 vs) (bbox_max 0 vs) (bbox_min 1 vs) (bbox_max 1 vs)
       (bbox_min 2 vs) (bbox_max 2 vs).
  change (Fin (bbox_min ?k vs) + Fin (bbox_max ?k vs))%js
    with (Fin (bbox_min k vs + bbox_max k vs)).
  rewrite !div_fin by lra.
  fold (bbox_center 0 vs) (bbox_center 1 vs) (bbox_center 2 vs).
  change [(Fin (bbox_max 0 vs) - Fin (bbox_min 0 vs))%js;
          (Fin (bbox_max 1 vs) - Fin (bbox_min 1 vs))%js;
          (Fin (bbox_max 2 vs) - Fin (bbox_min 2 vs))%js]
    with (map Fin [bbox_span 0 vs; bbox_span 1 vs; bbox_span 2 vs]).
  rewrite Math_max_fin by discriminate.
  change (MaxRlist [bbox_span 0 vs; bbox_span 1 vs; bbox_span 2 vs])
    with (max_span vs).
  rewrite map_map. apply map_ext. intros [[x y] z]. reflexivity.
Qed.

End BoundingBoxFacts.

Section LoaderFacts.







(** A [NaN] coordinate anywhere makes [Math.min] and [Math.max] of that
    axis [NaN]. *)
Lemma fold_max2_nan (l : list num) : fold_left max2 l NaN = NaN.
Proof. induction l; [reflexivity | exact IHl]. Qed.

Lemma fold_max2_has_nan (l : list num) (a : num) :
  In NaN l -> fold_left max2 l a = NaN.
Proof.
  revert a; induction l as [| b l IH]; intros a; [contradiction |].
  intros [-> | H]; cbn [fold_left].
  - replace (max2 a NaN) with NaN by (now destruct a). apply fold_max2_nan.
  - now apply IH.
Qed.

Lemma Math_max_nan (l : list num) : In NaN l -> Math_max l = NaN.
Proof. apply fold_max2_has_nan. Qed.

Lemma div_nan (a : num) : (a / NaN)%js = NaN.
Proof. now destruct a. Qed.

Lemma center_and_scale_nan (verts : list (list num)) (v : list num) (k : nat) :
  In v verts -> (k < 3)%nat -> elt v k = NaN ->
  center_and_scale verts = map (fun _ => [NaN; NaN; NaN]) verts.
Proof.
  intros Hv Hk Hnan. unfold center_and_scale.
  set (xs := map (fun v => elt v 0) verts).
  set (ys := map (fun v => elt v 1) verts).
  set (zs := map (fun v => elt v 2) verts).
  assert (M : Math_max [(Math_max xs - Math_min xs)%js;
                        (Math_max ys - Math_min ys)%js;
                        (Math_max zs - Math_min zs)%js] = NaN).
  { apply Math_max_nan.
    assert (In NaN (map (fun v => elt v k) verts))
      by (rewrite <- Hnan; now apply in_map with (f := fun v => elt v k)).
    destruct k as [| [| [| k]]]; try lia.
    - left. fold xs in H. now rewrite (Math_max_nan _ H).
    - right; left. fold ys in H. now rewrite (Math_max_nan _ H).
    - right; right; left. fold zs in H. now rewrite (Math_max_nan _ H). }
  rewrite M. apply map_ext. intros u. now rewrite !div_nan.
Qed.

End LoaderFacts.

Section Degenerate.

Lemma degenerate_coordinate (k : nat) (vs : list (R * R * R)) (v : R * R * R) :
  vs <> [] -> max_span vs = 0 -> In v vs ->
  axis k v - bbox_center k vs = 0.
Proof.
  intros Hne Hm Hv.
  pose proof (bbox_span_nonneg 0 Hne) as S0.
  pose proof (bbox_span_nonneg 1 Hne) as S1.
  pose proof (bbox_span_nonneg 2 Hne) as S2.
  assert (Sk : bbox_span k vs <= 0).
  { rewrite <- Hm. unfold max_span.
    destruct k as [| [| k]].
    - apply Rmax_l.
    - eapply Rle_trans; [apply Rmax_l | apply Rmax_r].
    - replace (bbox_span (S (S k)) vs) with (bbox_span 2 vs).
      + eapply Rle_trans; [apply Rmax_r | apply Rmax_r].
      + unfold bbox_span, bbox_max, bbox_min. f_equal; f_equal;
          apply map_ext; now intros [[x y] z]. }
  unfold bbox_span in Sk. unfold bbox_center.
  assert (I : In (axis k v) (map (axis k) vs)) by now apply in_map.
  pose proof (MinRlist_P1 _ _ I). pose proof (MaxRlist_P1 _ _ I).
  unfold bbox_max, bbox_min in *. lra.
Qed.

Lemma center_and_scale_degenerate (vs : list (R * R * R)) :
  vs <> [] -> max_span vs = 0 ->
  center_and_scale (map vertex vs) = map (fun _ => [NaN; NaN; NaN]) vs.
Proof.
  intros Hne Hm. rewrite center_and_scale_vertices by assumption.
  apply map_ext_in. intros v Hv.
  rewrite !(fun k => @degenerate_coordinate k vs v Hne Hm Hv), Hm, div_zero_zero.
  reflexivity.
Qed.

End Degenerate.

Ltac peel :=
  repeat match goal with
         | |- (_, _) = (_, _) => apply f_equal2
         | |- _ :: _ = _ :: _ => apply f_equal2
         | |- Fin _ = Fin _ => apply f_equal
         end.

Ltac eval_parse :=
  cbv - [Q2R IZR Rplus Rmult Ropp Rinv Rdiv Rminus];
  peel; try reflexivity; unfold Q2R; simpl; lra.

Ltac eval_minmax :=
  repeat match goal with
         | |- context [Rmax ?a ?b] =>
             first [rewrite (Rmax_left a b) by lra
                   | rewrite (Rmax_right a b) by lra]
         | |- context [Rmin ?a ?b] =>
             first [rewrite (Rmin_left a b) by lra
                   | rewrite (Rmin_right a b) by lra]
         end.

Ltac eval_bbox :=
  unfold max_span, bbox_center, bbox_span, bbox_max, bbox_min; simpl;
  eval_minmax; try lra.


(* ================================================================= *)
(** ** Properties of the model loader *)




(** C9.  On the text [malformed] the loader keeps the vertex line with the
    token [abc] and the one with a missing coordinate, storing [NaN] for
    these coordinates; the load returns, and the [NaN] reaches the bounding
    box: every coordinate of every returned vertex is [NaN]. *)
Theorem malformed_token_becomes_NaN :
  parseFloat "abc" = NaN
  /\ parseFloat (part ["v"; "3"; "4"]%string 3) = NaN
  /\ parse_lines malformed
     = ([[Fin 0; Fin 0; Fin 0]; [Fin 1; NaN; Fin 2]; [Fin 3; Fin 4; NaN]],
        [face [0; 1; 2]%nat])
  /\ loadOBJ malformed
     = ([[NaN; NaN; NaN]; [NaN; NaN; NaN]; [NaN; NaN; NaN]],
        [face [0; 1; 2]%nat]).
Proof.
  assert (P : parse_lines malformed
     = ([[Fin 0; Fin 0; Fin 0]; [Fin 1; NaN; Fin 2]; [Fin 3; Fin 4; NaN]],
        [face [0; 1; 2]%nat]))
    by eval_parse.
  split; [reflexivity | split; [reflexivity | split; [exact P |]]].
  unfold loadOBJ. rewrite P.
  rewrite (@center_and_scale_nan _ [Fin 1; NaN; Fin 2] 1);
    [reflexivity | right; now left | lia | reflexivity].
Qed.

(* ================================================================= *)
(** ** Properties of the rotation state *)

(** C2 (amended).  With no pointer event, from [velX = v0] and [velY = w0]:
    if each of the first [k] ticks integrates (it starts with
    [|velX| > 0.0001] or [|velY| > 0.0001 + 0.01]), the velocities after [k]
    ticks are [v0 * 0.99^k] and [w0 * 0.99^k]; whether ticks integrate or
    not, [|velX|] never grows from one tick to the next; and once a tick
    starts with [|velX| <= 0.0001] and [|velY| <= 0.0001 + 0.01], both
    velocities keep their values in all later ticks. *)
Theorem velocity_decays_while_integrating (k : nat) (s : state) (v0 w0 : R) :
  velX s = Fin v0 -> velY s = Fin w0 ->
  (forall j, (j < k)%nat ->
     integrating (velX (ticks j s)) (velY (ticks j s)) = true) ->
  velX (ticks k s) = Fin (v0 * 0.99 ^ k)
  /\ velY (ticks k s) = Fin (w0 * 0.99 ^ k)
  /\ Rabs (v0 * 0.99 ^ k) <= Rabs v0
  /\ (forall n, exists a b,
        velX (ticks n s) = Fin a /\ velX (ticks (S n) s) = Fin b
        /\ Rabs b <= Rabs a)
  /\ (forall n a b,
        velX (ticks n s) = Fin a -> velY (ticks n s) = Fin b ->
        Rabs a <= 0.0001 -> Rabs b <= 0.0001 + 0.01 ->
        forall m, (n <= m)%nat ->
          velX (ticks m s) = Fin a /\ velY (ticks m s) = Fin b).
Proof.
  intros Hx Hy Hint.
  assert (C : velX (ticks k s) = Fin (v0 * 0.99 ^ k)
              /\ velY (ticks k s) = Fin (w0 * 0.99 ^ k)).
  { induction k as [| k IH].
    - simpl. rewrite Hx, Hy. split; f_equal; lra.
    - destruct IH as [IHx IHy]; [intros j Hj; apply Hint; lia |].
      assert (E := Hint k (Nat.lt_succ_diag_r k)).
      rewrite ticks_last.
      rewrite (rotation_inertia_velX _ E), (rotation_inertia_velY _ E).
      rewrite IHx, IHy. split; simpl; f_equal; ring. }
  destruct C as [Cx Cy].
  split; [exact Cx | split; [exact Cy | split; [| split]]].
  - rewrite Rabs_mult, (Rabs_pos_eq (0.99 ^ k)) by (apply pow_le; lra).
    assert (0.99 ^ k <= 1).
    { rewrite <- (pow1 k). apply pow_incr. lra. }
    pose proof (Rabs_pos v0). nra.
  - intros n. destruct (@ticks_finite n s v0 w0 Hx Hy) as (a & b & Ha & Hb).
    destruct (@rotation_inertia_shrinks _ a b Ha Hb)
      as (a' & b' & Ha' & _ & Hle & _).
    exists a, a'. rewrite ticks_last. auto.
  - intros n a b Ha Hb La Lb m Hm.
    assert (F : integrating (velX (ticks n s)) (velY (ticks n s)) = false).
    { rewrite Ha, Hb. apply integrating_fin_false. lra. }
    rewrite (frozen_forever _ F Hm). now split.
Qed.

Lemma velocity_decays_while_integrating_witness :
  (velX (ticks 1 dragged) = Fin (0.01 * 0.99 ^ 1)
   /\ velY (ticks 1 dragged) = Fin (-0.01 * 0.99 ^ 1))
  /\ (velX (ticks 7 slow) = Fin 0.00005 /\ velY (ticks 7 slow) = Fin 0).
Proof.
  split.
  - destruct (@velocity_decays_while_integrating 1 dragged 0.01 (-0.01)
                dragged_velX dragged_velY) as (Hx & Hy & _).
    + intros j Hj. replace j with 0%nat by lia. exact dragged_integrating.
    + split; [exact Hx | exact Hy].
  - destruct (@velocity_decays_while_integrating 0 slow 0.00005 0
                eq_refl eq_refl) as (_ & _ & _ & _ & F).
    + intros j Hj. lia.
    + apply (F 0%nat 0.00005 0 eq_refl eq_refl).
      * rewrite Rabs_pos_eq; lra.
      * rewrite Rabs_R0. lra.
      * lia.
Defined.

(** C2 as stated fails once the velocity is under the thresholds: from
    [velX = 0.00005] and [velY = 0] a tick leaves the velocity as it is; and
    after a one-pixel drag ([velX = 0.01]) the 460th tick no longer
    decays. *)
Lemma velocity_stops_decaying :
  velX slow = Fin 0.00005
  /\ velX (ticks 1 slow) <> Fin (0.00005 * 0.99 ^ 1)
  /\ velX dragged = Fin 0.01
  /\ velX (ticks 460 dragged) <> Fin (0.01 * 0.99 ^ 460).
Proof.
  split; [reflexivity | split; [| split; [exact dragged_velX |]]].
  - assert (F : ticks 1 slow = slow).
    { apply (@rotation_inertia_frozen slow). apply integrating_fin_false.
      rewrite Rabs_R0, Rabs_pos_eq; lra. }
    rewrite F. simpl. intros H; injection H; lra.
  - rewrite (proj2 dragged_coasts), <- (tech_pow_Rmult 0.99 459).
    generalize (inertia_pow_pos 459). generalize (0.99 ^ 459).
    intros p P H. apply Fin_inj in H. nra.
Qed.

(** C4.  A tick that integrates replaces the matrix by
    [multiplyMatrices rotY (multiplyMatrices rotX rotationMatrix)], which on
    finite data is the textbook product [Ry(velY) * (Rx(velX) * old)]; and
    for the angles 0.01 and 0.01 that product differs from the one in the
    reverse order, [Rx * (Ry * old)], whenever the old matrix is
    orthonormal. *)
Theorem rotation_composition_order (s : state) (vx vy : R) (A : Mat.mat) :
  velX s = Fin vx -> velY s = Fin vy -> rotationMatrix s = Mat.flat A ->
  integrating (velX s) (velY s) = true ->
  rotationMatrix (fst (animate s))
  = multiplyMatrices (rotationMatrixY (velY s))
      (multiplyMatrices (rotationMatrixX (velX s)) (rotationMatrix s))
  /\ rotationMatrix (fst (animate s))
     = Mat.flat (Mat.mul (Mat.Ry vy) (Mat.mul (Mat.Rx vx) A))
  /\ (Mat.orthonormal A ->
      multiplyMatrices (rotationMatrixY (Fin 0.01))
        (multiplyMatrices (rotationMatrixX (Fin 0.01)) (rotationMatrix s))
      <> multiplyMatrices (rotationMatrixX (Fin 0.01))
           (multiplyMatrices (rotationMatrixY (Fin 0.01)) (rotationMatrix s))).
Proof.
  intros Hx Hy HA E. rewrite animate_state, (rotation_inertia_matrix _ E).
  split; [reflexivity |]. rewrite Hx, Hy, HA. split; [reflexivity |].
  intros Ho. apply (@noncommuting A 0.01 0.01 Ho).
  pose proof sin_small_pos. nra.
Qed.

Lemma rotation_composition_order_witness :
  rotationMatrix (fst (animate dragged))
  = Mat.flat (Mat.mul (Mat.Ry (-0.01)) (Mat.mul (Mat.Rx 0.01) Mat.I3))
  /\ multiplyMatrices (rotationMatrixY (Fin 0.01))
       (multiplyMatrices (rotationMatrixX (Fin 0.01)) identityMatrix)
     <> multiplyMatrices (rotationMatrixX (Fin 0.01))
          (multiplyMatrices (rotationMatrixY (Fin 0.01)) identityMatrix).
Proof.
  destruct (@rotation_composition_order dragged 0.01 (-0.01) Mat.I3
              dragged_velX dragged_velY eq_refl dragged_integrating)
    as (_ & H2 & H3).
  split; [exact H2 | exact (H3 orthonormal_I3)].
Defined.

(** C8.  The rotation matrix is the identity in the initial state and is
    orthonormal in every state the page can reach, before and after the
    next tick. *)
Theorem rotation_matrix_orthonormal (s : state) :
  reachable s ->
  orthonormal (rotationMatrix s)
  /\ orthonormal (rotationMatrix (fst (animate s)))
  /\ forall w h, rotationMatrix (initial w h) = Mat.flat Mat.I3.
Proof.
  intros H. split; [| split].
  - now apply reachable_invariant.
  - now apply reachable_invariant, reach_animate.
  - reflexivity.
Qed.

Lemma rotation_matrix_orthonormal_witness :
  orthonormal (rotationMatrix (fst (animate dragged))).
Proof.
  apply (@rotation_matrix_orthonormal (fst (animate dragged))).
  apply reach_animate, reach_mousemove, reach_mousedown, reach_initial.
Defined.

(** C10.  A tick that starts with [|velX| <= 0.0001] and
    [|velY| <= 0.0101] leaves the whole state as it is, and so does any
    number of such ticks: the velocity stays where it froze.  The two
    thresholds differ: the velocity 0.0101 integrates as [velX] and is
    frozen as [velY]. *)
Theorem frozen_tick_is_noop (s : state) (vx vy : R) :
  velX s = Fin vx -> velY s = Fin vy ->
  Rabs vx <= 0.0001 -> Rabs vy <= 0.0101 ->
  fst (animate s) = s
  /\ (forall k, ticks k s = s)
  /\ integrating (Fin 0.0101) (Fin 0) = true
  /\ integrating (Fin 0) (Fin 0.0101) = false.
Proof.
  intros Hx Hy Bx By.
  assert (F : rotation_inertia s = s).
  { apply rotation_inertia_frozen. rewrite Hx, Hy.
    now apply integrating_fin_false. }
  split; [exact F |]. split.
  - induction k as [| k IH]; [reflexivity |].
    now rewrite ticks_last, IH.
  - split.
    + apply integrating_fin. left. rewrite Rabs_pos_eq; lra.
    + apply integrating_fin_false. rewrite Rabs_R0, Rabs_pos_eq; lra.
Qed.

Lemma frozen_tick_is_noop_witness :
  fst (animate slow) = slow /\ (forall k, ticks k slow = slow).
Proof.
  destruct (@frozen_tick_is_noop slow 0.00005 0 eq_refl eq_refl)
    as (H1 & H2 & _).
  - rewrite Rabs_pos_eq; lra.
  - rewrite Rabs_R0; lra.
  - split; [exact H1 | exact H2].
Defined.

(* ================================================================= *)
(** ** Properties of the projector *)

(** C3.  At the identity rotation a vertex [(x, y, z)] is projected to
    [(width/2 + x*scale, height/2 + y*scale, z)] with
    [scale = perspectiveFOV / (perspectiveFOV + z + 5)]; for [z = 0] the
    scale is [500 / (500 + 5)].  This is what a frame computes for a model
    just loaded and not dragged. *)
Theorem projection_at_identity (x y z w h : R) :
  project identityMatrix (Fin w) (Fin h) [Fin x; Fin y; Fin z]
  = [(Fin w / Fin 2
      + Fin x * (perspectiveFOV / (perspectiveFOV + Fin z + Fin 5)))%js;
     (Fin h / Fin 2
      + Fin y * (perspectiveFOV / (perspectiveFOV + Fin z + Fin 5)))%js;
     Fin z]
  /\ (500 + z + 5 <> 0 ->
      project identityMatrix (Fin w) (Fin h) [Fin x; Fin y; Fin z]
      = [Fin (w / 2 + x * (500 / (500 + z + 5)));
         Fin (h / 2 + y * (500 / (500 + z + 5)));
         Fin z])
  /\ project identityMatrix (Fin w) (Fin h) [Fin x; Fin y; Fin 0]
     = [Fin (w / 2 + x * (500 / (500 + 5)));
        Fin (h / 2 + y * (500 / (500 + 5)));
        Fin 0]
  /\ (forall verts facs,
        project_vertices (fst (animate (loaded verts facs (initial w h))))
        = map (project identityMatrix (Fin w) (Fin h)) verts).
Proof.
  assert (A : forall c,
             applyMatrix identityMatrix [Fin x; Fin y; Fin c]
             = [Fin x; Fin y; Fin c]).
  { intros c. rewrite identityMatrix_flat, applyMatrix_flat.
    unfold Mat.I3; simpl. repeat f_equal; ring. }
  assert (P : forall c, 500 + c + 5 <> 0 ->
      project identityMatrix (Fin w) (Fin h) [Fin x; Fin y; Fin c]
      = [Fin (w / 2 + x * (500 / (500 + c + 5)));
         Fin (h / 2 + y * (500 / (500 + c + 5)));
         Fin c]).
  { intros c Hc. unfold project. rewrite A. cbv zeta. cbn [elt nth].
    unfold perspectiveFOV.
    change (Fin 500 + Fin c + Fin 5)%js with (Fin (500 + c + 5)).
    rewrite !div_fin by lra. reflexivity. }
  split; [| split; [| split]].
  - unfold project. rewrite A. reflexivity.
  - apply P.
  - rewrite P by lra. repeat f_equal; lra.
  - intros verts facs. rewrite animate_state, rotation_inertia_frozen.
    + reflexivity.
    + apply integrating_fin_false. rewrite Rabs_R0; lra.
Qed.

Lemma projection_at_identity_witness :
  project identityMatrix (Fin 800) (Fin 600) [Fin 150; Fin (-150); Fin 95]
  = [Fin (800 / 2 + 150 * (500 / (500 + 95 + 5)));
     Fin (600 / 2 + -150 * (500 / (500 + 95 + 5)));
     Fin 95].
Proof.
  apply (proj1 (proj2 (projection_at_identity 150 (-150) 95 800 600))).
  lra.
Defined.

(* ================================================================= *)
(** ** Properties of the style resolver *)

(** The model of a single vertex is loaded as one vertex of [NaN]
    coordinates. *)
Lemma lone_vertex_loaded : loadOBJ lone_vertex = ([[NaN; NaN; NaN]], []).
Proof.
  assert (P : parse_lines lone_vertex = (map vertex [(1, 2, 3)], []))
    by eval_parse.
  unfold loadOBJ. rewrite P.
  rewrite center_and_scale_degenerate; [reflexivity | discriminate |].
  eval_bbox.
Qed.

(** C5 (amended).  Whatever the projected position and the depth of an
    element, as long as they are numbers (finite or infinite) and the cursor
    is at a finite position, the radius of a dot lies in
    [[dotMinSize, dotMaxSize]], its alpha in [[dotMinAlpha, dotMaxAlpha]],
    and the alpha of a line in [[lineMinAlpha, lineMaxAlpha]].  A depth that
    is [NaN] is not clamped: the radius and the alpha of the dot are then
    [NaN]. *)
Theorem styles_stay_in_range (x y z : num) (mx my : R) :
  is_nan x = false -> is_nan y = false -> is_nan z = false ->
  within dotMinSize dotMaxSize (fst (dotStyle [x; y; z] (Fin mx) (Fin my)))
  /\ within dotMinAlpha dotMaxAlpha (snd (dotStyle [x; y; z] (Fin mx) (Fin my)))
  /\ within lineMinAlpha lineMaxAlpha (lineAlpha x y z (Fin mx) (Fin my))
  /\ dotStyle [x; y; NaN] (Fin mx) (Fin my) = (NaN, NaN).
Proof.
  intros Hx Hy Hz.
  destruct (@dotCursorEffects_fin x y z mx my Hx Hy) as (e1 & e2 & Ee).
  destruct (@lineCursorEffect_fin x y z mx my Hx Hy) as (e & El).
  unfold dotStyle, lineAlpha. cbv zeta. rewrite Ee, El.
  simpl fst; simpl snd. cbn [elt nth].
  split; [| split; [| split]]; try (apply clamp_within; try lra).
  - apply add_fin_not_nan, depth_term_not_nan; [assumption | lra].
  - apply add_fin_not_nan, depth_term_not_nan; [assumption | lra].
  - reflexivity.
  - reflexivity.
Qed.

Lemma styles_stay_in_range_witness :
  within dotMinSize dotMaxSize
    (fst (dotStyle [Fin 400; Fin 300; NInf] (Fin 400) (Fin 300)))
  /\ within dotMinAlpha dotMaxAlpha
       (snd (dotStyle [Fin 400; Fin 300; NInf] (Fin 400) (Fin 300)))
  /\ within lineMinAlpha lineMaxAlpha
       (lineAlpha (Fin 400) (Fin 300) NInf (Fin 400) (Fin 300))
  /\ dotStyle [Fin 400; Fin 300; NaN] (Fin 400) (Fin 300) = (NaN, NaN).
Proof.
  apply (@styles_stay_in_range (Fin 400) (Fin 300) NInf 400 300);
    reflexivity.
Defined.

(** C5 as stated fails on a model the loader accepts: the model of a
    single vertex is loaded with [NaN] coordinates, and the frame drawn from
    it holds a dot whose radius and alpha are [NaN], in no range. *)
Lemma nan_dot_out_of_range :
  let s := loaded (fst (loadOBJ lone_vertex)) (snd (loadOBJ lone_vertex))
             (initial 800 600) in
  reachable s
  /\ vertices s = [[NaN; NaN; NaN]]
  /\ snd (animate s) = Some [Arc NaN NaN NaN NaN]
  /\ dotStyle [NaN; NaN; NaN] (mouseX s) (mouseY s) = (NaN, NaN)
  /\ ~ within dotMinSize dotMaxSize
         (fst (dotStyle [NaN; NaN; NaN] (mouseX s) (mouseY s)))
  /\ ~ within dotMinAlpha dotMaxAlpha
         (snd (dotStyle [NaN; NaN; NaN] (mouseX s) (mouseY s))).
Proof.
  cbv zeta. split; [apply reach_loaded, reach_initial |].
  rewrite lone_vertex_loaded. cbn [fst snd].
  split; [reflexivity |]. split; [| split; [reflexivity | split; intros H; exact H]].
  unfold animate.
  rewrite rotation_inertia_frozen.
  - assert (A : forall v, (v + NaN)%js = NaN) by (intros []; reflexivity).
    cbn. now rewrite !A.
  - apply integrating_fin_false. rewrite Rabs_R0. lra.
Qed.

(** C6 (amended).  For a dot projected exactly onto the cursor the cursor
    factor is 0, and if moreover its depth [-z] is greater than
    [dotCursorZCutoff] the two boost terms are [dotCursorSizeBoost] and
    [dotCursorAlphaBoost]; for a dot at a distance of at least
    [dotCursorEffectRadius] from the cursor the factor is 1 and both boost
    terms are 0. *)
Theorem cursor_falloff (x y z mx my : R) :
  (x = mx -> y = my ->
   dotCursorFactor [Fin x; Fin y; Fin z] (Fin mx) (Fin my) = Fin 0
   /\ (0 < - z ->
       dotCursorEffects [Fin x; Fin y; Fin z] (Fin mx) (Fin my)
       = (dotCursorSizeBoost, dotCursorAlphaBoost)))
  /\ (150 <= sqrt ((x - mx) * (x - mx) + (y - my) * (y - my)) ->
      dotCursorFactor [Fin x; Fin y; Fin z] (Fin mx) (Fin my) = Fin 1
      /\ dotCursorEffects [Fin x; Fin y; Fin z] (Fin mx) (Fin my)
         = (Fin 0, Fin 0)).
Proof.
  split.
  - intros -> ->.
    assert (F : dotCursorFactor [Fin mx; Fin my; Fin z] (Fin mx) (Fin my)
                = Fin 0).
    { rewrite dotCursorFactor_fin. f_equal.
      replace ((mx - mx) * (mx - mx) + (my - my) * (my - my)) with 0 by ring.
      rewrite sqrt_0. unfold Rmin; destruct (Rle_dec (0 / 150) 1); lra. }
    split; [exact F |]. intros Hz.
    unfold dotCursorEffects. cbv zeta. rewrite F. cbn [elt nth].
    assert (G : (- Fin z >? dotCursorZCutoff)%js = true)
      by (apply gt_fin; lra).
    rewrite G. unfold dotCursorSizeBoost, dotCursorAlphaBoost. simpl.
    f_equal; f_equal; lra.
  - intros Hd.
    assert (F : dotCursorFactor [Fin x; Fin y; Fin z] (Fin mx) (Fin my)
                = Fin 1).
    { rewrite dotCursorFactor_fin. f_equal.
      unfold Rmin; destruct (Rle_dec _ 1); lra. }
    split; [exact F |].
    unfold dotCursorEffects. cbv zeta. rewrite F. cbn [elt nth].
    destruct (- Fin z >? dotCursorZCutoff)%js; [| reflexivity].
    unfold dotCursorSizeBoost, dotCursorAlphaBoost. simpl.
    f_equal; f_equal; lra.
Qed.

Lemma cursor_falloff_witness :
  (dotCursorFactor [Fin 400; Fin 300; Fin (-1)] (Fin 400) (Fin 300) = Fin 0
   /\ dotCursorEffects [Fin 400; Fin 300; Fin (-1)] (Fin 400) (Fin 300)
      = (dotCursorSizeBoost, dotCursorAlphaBoost))
  /\ (dotCursorFactor [Fin 550; Fin 300; Fin (-1)] (Fin 400) (Fin 300) = Fin 1
      /\ dotCursorEffects [Fin 550; Fin 300; Fin (-1)] (Fin 400) (Fin 300)
         = (Fin 0, Fin 0)).
Proof.
  split.
  - destruct (proj1 (cursor_falloff 400 300 (-1) 400 300) eq_refl eq_refl)
      as [F B].
    split; [exact F | apply B; lra].
  - apply (proj2 (cursor_falloff 550 300 (-1) 400 300)).
    replace ((550 - 400) * (550 - 400) + (300 - 300) * (300 - 300))
      with (Rsqr 150) by (unfold Rsqr; ring).
    rewrite sqrt_Rsqr; lra.
Defined.

(** C6 as stated fails for a dot under the cursor whose depth is not above
    the cutoff: its cursor factor is 0 and yet its boost terms are 0. *)
Lemma boost_missing_behind :
  dotCursorFactor dot_behind (Fin 400) (Fin 300) = Fin 0
  /\ dotCursorEffects dot_behind (Fin 400) (Fin 300) = (Fin 0, Fin 0)
  /\ dotCursorEffects dot_behind (Fin 400) (Fin 300)
     <> (dotCursorSizeBoost, dotCursorAlphaBoost).
Proof.
  assert (G : (- Fin 1 >? dotCursorZCutoff)%js = false)
    by (apply gt_fin_false; lra).
  assert (E : dotCursorEffects dot_behind (Fin 400) (Fin 300) = (Fin 0, Fin 0)).
  { unfold dotCursorEffects, dot_behind. cbv zeta. cbn [elt nth].
    now rewrite G. }
  split; [| split; [exact E |]].
  - unfold dot_behind. rewrite dotCursorFactor_fin. f_equal.
    replace ((400 - 400) * (400 - 400) + (300 - 300) * (300 - 300))
      with 0 by ring.
    rewrite sqrt_0. unfold Rmin; destruct (Rle_dec (0 / 150) 1); lra.
  - rewrite E. unfold dotCursorSizeBoost. intros H; injection H; lra.
Qed.

(** C7.  A dot of rotated depth coordinate [z] is drawn with the radius
    and alpha clamped from [base + (1 - cursorFactor) * boost] when
    [-z > 0] ([dotCursorZCutoff]) and from [base + 0] otherwise, [base]
    being the depth term of [-z]; a face of mean rotated depth coordinate
    [az] is drawn with the alpha clamped from
    [lineAlphaOffset + (1 - cursorFactor) * boost] when [az < 0]
    ([lineCursorZCutoff]) and from [lineAlphaOffset + 0] otherwise.  The
    depth coordinate of a projected vertex is the rotated [z]; a dot is drawn
    with the style of its projected vertex, and a face with the alpha of the
    arithmetic means of the projected coordinates of its vertices. *)
Theorem cursor_boost_cutoffs (x y : num) (z : R) (ax ay : num) (az : R)
    (mx my : num) :
  let depth := (- Fin z)%js in
  let cursorFactor := dotCursorFactor [x; y; Fin z] mx my in
  let lineFactor := lineCursorFactor ax ay mx my in
  let clamped lo hi v := Math_min [Math_max [v; lo]; hi] in
  (0 < - z ->
   dotCursorEffects [x; y; Fin z] mx my
   = ((Fin 1 - cursorFactor) * dotCursorSizeBoost,
      (Fin 1 - cursorFactor) * dotCursorAlphaBoost)%js
   /\ dotStyle [x; y; Fin z] mx my
      = (clamped dotMinSize dotMaxSize
           (depth * dotSizeDepthEffect + dotSizeOffset
            + (Fin 1 - cursorFactor) * dotCursorSizeBoost),
         clamped dotMinAlpha dotMaxAlpha
           (depth * dotAlphaDepthEffect + dotAlphaOffset
            + (Fin 1 - cursorFactor) * dotCursorAlphaBoost))%js)
  /\ (- z <= 0 ->
      dotCursorEffects [x; y; Fin z] mx my = (Fin 0, Fin 0)
      /\ dotStyle [x; y; Fin z] mx my
         = (clamped dotMinSize dotMaxSize
              (depth * dotSizeDepthEffect + dotSizeOffset + Fin 0),
            clamped dotMinAlpha dotMaxAlpha
              (depth * dotAlphaDepthEffect + dotAlphaOffset + Fin 0))%js)
  /\ (az < 0 ->
      lineCursorEffect ax ay (Fin az) mx my
      = ((Fin 1 - lineFactor) * lineCursorAlphaBoost)%js
      /\ lineAlpha ax ay (Fin az) mx my
         = clamped lineMinAlpha lineMaxAlpha
             (lineAlphaOffset + (Fin 1 - lineFactor) * lineCursorAlphaBoost)%js)
  /\ (0 <= az ->
      lineCursorEffect ax ay (Fin az) mx my = Fin 0
      /\ lineAlpha ax ay (Fin az) mx my
         = clamped lineMinAlpha lineMaxAlpha (lineAlphaOffset + Fin 0)%js)
  /\ (forall (m : list num) (w h : num) (v : list num),
        elt (project m w h v) 2 = elt (applyMatrix m v) 2)
  /\ (forall s : state,
        draw_vertex s [x; y; Fin z]
        = Arc (snd (dotStyle [x; y; Fin z] (mouseX s) (mouseY s))) x y
              (fst (dotStyle [x; y; Fin z] (mouseX s) (mouseY s))))
  /\ (forall (s : state) (pts : list (R * R * R)) (f : list nat),
        f <> [] -> (forall i, In i f -> (i < List.length pts)%nat) ->
        exists path,
          draw_face s (map vertex pts) (face f)
          = Some (Stroke
                    (lineAlpha
                       (Fin (mean (map (fun i => axis 0 (nth i pts (0, 0, 0))) f)))
                       (Fin (mean (map (fun i => axis 1 (nth i pts (0, 0, 0))) f)))
                       (Fin (mean (map (fun i => axis 2 (nth i pts (0, 0, 0))) f)))
                       (mouseX s) (mouseY s))
                    path)).
Proof.
  cbv zeta.
  assert (D1 : 0 < - z ->
               dotCursorEffects [x; y; Fin z] mx my
               = ((Fin 1 - dotCursorFactor [x; y; Fin z] mx my) * dotCursorSizeBoost,
                  (Fin 1 - dotCursorFactor [x; y; Fin z] mx my)
                  * dotCursorAlphaBoost)%js).
  { intros Hz. unfold dotCursorEffects. cbv zeta. cbn [elt nth].
    assert (G : (- Fin z >? dotCursorZCutoff)%js = true) by (apply gt_fin; lra).
    now rewrite G. }
  assert (D0 : - z <= 0 ->
               dotCursorEffects [x; y; Fin z] mx my = (Fin 0, Fin 0)).
  { intros Hz. unfold dotCursorEffects. cbv zeta. cbn [elt nth].
    assert (G : (- Fin z >? dotCursorZCutoff)%js = false)
      by (apply gt_fin_false; lra).
    now rewrite G. }
  assert (L1 : az < 0 ->
               lineCursorEffect ax ay (Fin az) mx my
               = ((Fin 1 - lineCursorFactor ax ay mx my)
                  * lineCursorAlphaBoost)%js).
  { intros Hz. unfold lineCursorEffect. cbv zeta.
    assert (G : (Fin az <? lineCursorZCutoff)%js = true) by (apply lt_fin; lra).
    now rewrite G. }
  assert (L0 : 0 <= az -> lineCursorEffect ax ay (Fin az) mx my = Fin 0).
  { intros Hz. unfold lineCursorEffect. cbv zeta.
    assert (G : (Fin az <? lineCursorZCutoff)%js = false)
      by (apply lt_fin_false; lra).
    now rewrite G. }
  split; [| split; [| split; [| split; [| split; [| split]]]]].
  - intros Hz. split; [now apply D1 |].
    unfold dotStyle. cbv zeta. now rewrite (D1 Hz).
  - intros Hz. split; [now apply D0 |].
    unfold dotStyle. cbv zeta. now rewrite (D0 Hz).
  - intros Hz. split; [now apply L1 |].
    unfold lineAlpha. cbv zeta. now rewrite (L1 Hz).
  - intros Hz. split; [now apply L0 |].
    unfold lineAlpha. cbv zeta. now rewrite (L0 Hz).
  - reflexivity.
  - intros s. unfold draw_vertex.
    now destruct (dotStyle [x; y; Fin z] (mouseX s) (mouseY s)).
  - intros s pts f Hne Hf. unfold draw_face.
    rewrite !average_face by (assumption || lia).
    destruct f as [| i f]; [contradiction |]. eexists. reflexivity.
Qed.

Lemma cursor_boost_cutoffs_witness :
  (dotStyle [Fin 400; Fin 300; Fin (-1)] (Fin 400) (Fin 300)
   = (Math_min
        [Math_max
           [- Fin (-1) * dotSizeDepthEffect + dotSizeOffset
            + (Fin 1 - dotCursorFactor [Fin 400; Fin 300; Fin (-1)]
                         (Fin 400) (Fin 300)) * dotCursorSizeBoost;
            dotMinSize];
         dotMaxSize],
      Math_min
        [Math_max
           [- Fin (-1) * dotAlphaDepthEffect + dotAlphaOffset
            + (Fin 1 - dotCursorFactor [Fin 400; Fin 300; Fin (-1)]
                         (Fin 400) (Fin 300)) * dotCursorAlphaBoost;
            dotMinAlpha];
         dotMaxAlpha])%js
   /\ lineAlpha (Fin 400) (Fin 300) (Fin (-1)) (Fin 400) (Fin 300)
      = Math_min
          [Math_max
             [lineAlphaOffset
              + (Fin 1 - lineCursorFactor (Fin 400) (Fin 300)
                           (Fin 400) (Fin 300)) * lineCursorAlphaBoost;
              lineMinAlpha];
           lineMaxAlpha]%js)
  /\ (dotStyle [Fin 400; Fin 300; Fin 1] (Fin 400) (Fin 300)
      = (Math_min
           [Math_max
              [- Fin 1 * dotSizeDepthEffect + dotSizeOffset + Fin 0;
               dotMinSize];
            dotMaxSize],
         Math_min
           [Math_max
              [- Fin 1 * dotAlphaDepthEffect + dotAlphaOffset + Fin 0;
               dotMinAlpha];
            dotMaxAlpha])%js
      /\ lineAlpha (Fin 400) (Fin 300) (Fin 1) (Fin 400) (Fin 300)
         = Math_min [Math_max [lineAlphaOffset + Fin 0; lineMinAlpha];
                     lineMaxAlpha]%js).
Proof.
  split.
  - destruct (cursor_boost_cutoffs (Fin 400) (Fin 300) (-1)
                (Fin 400) (Fin 300) (-1) (Fin 400) (Fin 300))
      as (D & _ & L & _).
    split; [apply D; lra | apply L; lra].
  - destruct (cursor_boost_cutoffs (Fin 400) (Fin 300) 1
                (Fin 400) (Fin 300) 1 (Fin 400) (Fin 300))
      as (_ & D & _ & L & _).
    split; [apply D; lra | apply L; lra].
Defined.

(* ================================================================= *)
(** ** Further properties of the rotation *)

Section MoreMatrixFacts.

Lemma det_mul (A B : Mat.mat) : det (Mat.mul A B) = det A * det B.
Proof. unfold det, Mat.mul. ring. Qed.

Lemma det_Rx (t : R) : det (Mat.Rx t) = 1.
Proof.
  pose proof (sin2_cos2 t) as H; unfold Rsqr in H.
  unfold det, Mat.Rx; simpl. nra.
Qed.

Lemma det_Ry (t : R) : det (Mat.Ry t) = 1.
Proof.
  pose proof (sin2_cos2 t) as H; unfold Rsqr in H.
  unfold det, Mat.Ry; simpl. nra.
Qed.

Lemma det_I3 : det Mat.I3 = 1.
Proof. unfold det, Mat.I3; simpl. ring. Qed.

Lemma rotation_inertia_proper (s : state) :
  proper s -> proper (rotation_inertia s).
Proof.
  intros (Ho & Hx & Hy & Hd).
  destruct (integrating (velX s) (velY s)) eqn:E;
    [| now rewrite (rotation_inertia_frozen _ E)].
  destruct (is_fin_inv _ Hx) as [vx Ex], (is_fin_inv _ Hy) as [vy Ey].
  destruct Ho as (A & EA & HA & DA).
  unfold proper.
  rewrite (rotation_inertia_matrix _ E), (rotation_inertia_velX _ E),
    (rotation_inertia_velY _ E), Ex, Ey, EA.
  split; [| split; [exact I | split; [exact I |]]].
  - exists (Mat.mul (Mat.Ry vy) (Mat.mul (Mat.Rx vx) A)). split; [| split].
    + reflexivity.
    + apply orthonormal_mul; [apply orthonormal_Ry |].
      apply orthonormal_mul; [apply orthonormal_Rx | exact HA].
    + rewrite !det_mul, det_Ry, det_Rx, DA. ring.
  - unfold rotation_inertia; rewrite E; exact Hd.
Qed.

Lemma reachable_proper (s : state) : reachable s -> proper s.
Proof.
  induction 1 as [w h | s _ IH | e s _ IH | s _ IH | e s _ IH
                 | w h s _ IH | text s _ IH].
  - repeat split; simpl; try exact I; try discriminate.
    exists Mat.I3; split; [reflexivity | split; [apply orthonormal_I3 | apply det_I3]].
  - rewrite animate_state. now apply rotation_inertia_proper.
  - destruct IH as (Ho & Hx & Hy & _). repeat split; simpl; auto.
  - destruct IH as (Ho & Hx & Hy & _). repeat split; simpl; auto; discriminate.
  - destruct IH as (Ho & Hx & Hy & Hd). unfold mousemove.
    destruct (dragging s) eqn:D.
    + destruct (Hd eq_refl) as [Lx Ly].
      destruct (is_fin_inv _ Lx) as [lx Ex], (is_fin_inv _ Ly) as [ly Ey].
      repeat split; simpl; auto; rewrite ?Ex, ?Ey; exact I.
    + split; [exact Ho | split; [exact Hx | split; [exact Hy |]]].
      simpl; intros D'; congruence.
  - exact IH.
  - exact IH.
Qed.

Lemma norm_preserved (A : Mat.mat) (x y z : R) :
  Mat.orthonormal A ->
  let x' := A 0%nat 0%nat * x + A 0%nat 1%nat * y + A 0%nat 2%nat * z in
  let y' := A 1%nat 0%nat * x + A 1%nat 1%nat * y + A 1%nat 2%nat * z in
  let z' := A 2%nat 0%nat * x + A 2%nat 1%nat * y + A 2%nat 2%nat * z in
  x' * x' + y' * y' + z' * z' = x * x + y * y + z * z.
Proof.
  intros [_ HA]. apply eq3_elim in HA.
  unfold Mat.mul, Mat.transpose, Mat.I3 in HA; simpl in HA.
  decompose [and] HA; clear HA. intros x' y' z'. subst x' y' z'.
  nsatz.
Qed.

End MoreMatrixFacts.

(** X10.  Rotation is rigid.  In every state the program can reach from its
    start by ticks, pointer events, resizes and a load, applying the
    rotation matrix to a finite point gives a finite point at the same
    distance from the origin. *)
Theorem rotation_is_rigid (s : state) (x y z : R) :
  reachable s ->
  exists x' y' z',
    applyMatrix (rotationMatrix s) [Fin x; Fin y; Fin z] = [Fin x'; Fin y'; Fin z']
    /\ x' * x' + y' * y' + z' * z' = x * x + y * y + z * z.
Proof.
  intros H. destruct (reachable_proper H) as ((A & EA & HA & _) & _).
  rewrite EA, applyMatrix_flat.
  eexists _, _, _. split; [reflexivity |].
  apply (norm_preserved x y z HA).
Qed.

(** X11.  The rotation never mirrors the model: in every reachable state
    the rotation matrix is a matrix of finite entries of determinant 1. *)
Theorem rotation_never_mirrors (s : state) :
  reachable s ->
  exists A, rotationMatrix s = Mat.flat A /\ det A = 1.
Proof.
  intros H. destruct (reachable_proper H) as ((A & EA & _ & DA) & _).
  now exists A.
Qed.

(** X8.  On matrices of finite entries [multiplyMatrices] has
    [identityMatrix] as left and right unit and is associative, and
    [applyMatrix] of a product is [applyMatrix] of the left factor after
    [applyMatrix] of the right one. *)
Theorem matrix_product_laws (A B C : Mat.mat) (x y z : R) :
  multiplyMatrices identityMatrix (Mat.flat A) = Mat.flat A
  /\ multiplyMatrices (Mat.flat A) identityMatrix = Mat.flat A
  /\ multiplyMatrices (multiplyMatrices (Mat.flat A) (Mat.flat B)) (Mat.flat C)
     = multiplyMatrices (Mat.flat A) (multiplyMatrices (Mat.flat B) (Mat.flat C))
  /\ applyMatrix (multiplyMatrices (Mat.flat A) (Mat.flat B)) [Fin x; Fin y; Fin z]
     = applyMatrix (Mat.flat A) (applyMatrix (Mat.flat B) [Fin x; Fin y; Fin z]).
Proof.
  rewrite identityMatrix_flat, !multiplyMatrices_flat, !applyMatrix_flat.
  repeat split; unfold Mat.flat, Mat.mul, Mat.I3; simpl;
    repeat (apply f_equal2; [apply f_equal; ring |]); reflexivity.
Qed.

(** X9.  Rotations about one axis add their angles:
    [rotationMatrixX a * rotationMatrixX b = rotationMatrixX (a + b)], and
    likewise about Y; the angle 0 gives [identityMatrix], and the opposite
    angle the inverse. *)
Theorem rotation_angles_add (a b : R) :
  multiplyMatrices (rotationMatrixX (Fin a)) (rotationMatrixX (Fin b))
  = rotationMatrixX (Fin (a + b))
  /\ multiplyMatrices (rotationMatrixY (Fin a)) (rotationMatrixY (Fin b))
     = rotationMatrixY (Fin (a + b))
  /\ rotationMatrixX (Fin 0) = identityMatrix
  /\ rotationMatrixY (Fin 0) = identityMatrix
  /\ multiplyMatrices (rotationMatrixX (Fin (- a))) (rotationMatrixX (Fin a))
     = identityMatrix
  /\ multiplyMatrices (rotationMatrixY (Fin (- a))) (rotationMatrixY (Fin a))
     = identityMatrix.
Proof.
  rewrite !rotationMatrixX_flat, !rotationMatrixY_flat, !multiplyMatrices_flat,
    identityMatrix_flat.
  pose proof (sin2_cos2 a) as H; unfold Rsqr in H.
  repeat split; unfold Mat.flat, Mat.mul, Mat.I3, Mat.Rx, Mat.Ry; simpl;
    rewrite ?cos_plus, ?sin_plus, ?cos_0, ?sin_0, ?cos_neg, ?sin_neg;
    repeat (apply f_equal2; [apply f_equal; nra |]); reflexivity.
Qed.

Lemma rotation_is_rigid_witness :
  exists x' y' z',
    applyMatrix (rotationMatrix (fst (animate dragged))) [Fin 1; Fin 2; Fin 3]
    = [Fin x'; Fin y'; Fin z']
    /\ x' * x' + y' * y' + z' * z' = 1 * 1 + 2 * 2 + 3 * 3.
Proof.
  apply (@rotation_is_rigid (fst (animate dragged)) 1 2 3).
  apply reach_animate, reach_mousemove, reach_mousedown, reach_initial.
Defined.

Lemma rotation_never_mirrors_witness :
  exists A, rotationMatrix (ticks 2 dragged) = Mat.flat A /\ det A = 1.
Proof.
  apply (@rotation_never_mirrors (ticks 2 dragged)).
  apply reach_animate, reach_animate, reach_mousemove, reach_mousedown,
    reach_initial.
Defined.

Section RestFacts.

(** Along a run either some tick finds the state frozen, or all of them
    integrate and the velocities follow the closed form. *)
Lemma frozen_or_decayed (s : state) (v0 w0 : R) (n : nat) :
  velX s = Fin v0 -> velY s = Fin w0 ->
  (exists j, (j < n)%nat
             /\ integrating (velX (ticks j s)) (velY (ticks j s)) = false)
  \/ (velX (ticks n s) = Fin (v0 * 0.99 ^ n)
      /\ velY (ticks n s) = Fin (w0 * 0.99 ^ n)).
Proof.
  intros Hx Hy. induction n as [| n [(j & Hj & F) | [Cx Cy]]].
  - right. simpl. rewrite Hx, Hy. split; f_equal; lra.
  - left. exists j. split; [lia | exact F].
  - destruct (integrating (velX (ticks n s)) (velY (ticks n s))) eqn:E.
    + right. rewrite ticks_last.
      rewrite (rotation_inertia_velX _ E), (rotation_inertia_velY _ E), Cx, Cy.
      split; simpl; f_equal; ring.
    + left. exists n. split; [lia | exact E].
Qed.

Lemma inertia_vanishes (b : R) :
  0 <= b -> exists n, b * 0.99 ^ n <= 0.0001.
Proof.
  intros Hb.
  assert (A : Rabs 0.99 < 1) by (rewrite Rabs_pos_eq; lra).
  assert (Y : 0 < 0.0001 / (b + 1)).
  { apply Rdiv_lt_0_compat; lra. }
  destruct (pow_lt_1_zero 0.99 A _ Y) as [N HN].
  exists N. specialize (HN N (Nat.le_refl N)).
  rewrite Rabs_pos_eq in HN by (apply pow_le; lra).
  assert (P : 0 < 0.99 ^ N) by (apply pow_lt; lra).
  assert (Q : 0.99 ^ N * (b + 1) < 0.0001).
  { apply (Rmult_lt_compat_r (b + 1)) in HN; [| lra].
    unfold Rdiv in HN. rewrite Rmult_assoc, Rinv_l, Rmult_1_r in HN by lra.
    exact HN. }
  nra.
Qed.

End RestFacts.

(** X12.  Left alone, the model comes to rest: from every reachable state
    there is a number of ticks after which further ticks change nothing of
    the state. *)
Theorem rotation_comes_to_rest (s : state) :
  reachable s ->
  exists k, forall n, (k <= n)%nat -> ticks n s = ticks k s.
Proof.
  intros H. destruct (reachable_invariant H) as (_ & Hx & Hy & _).
  destruct (is_fin_inv _ Hx) as [v0 Ex], (is_fin_inv _ Hy) as [w0 Ey].
  destruct (@inertia_vanishes (Rabs v0 + Rabs w0)) as [N HN].
  { pose proof (Rabs_pos v0); pose proof (Rabs_pos w0); lra. }
  destruct (@frozen_or_decayed s v0 w0 N Ex Ey) as [(j & _ & F) | [Cx Cy]].
  - exists j. now apply frozen_forever.
  - exists N. apply frozen_forever. rewrite Cx, Cy.
    apply integrating_fin_false.
    assert (P : 0 < 0.99 ^ N) by (apply pow_lt; lra).
    rewrite !Rabs_mult, (Rabs_pos_eq (0.99 ^ N)) by lra.
    pose proof (Rabs_pos v0); pose proof (Rabs_pos w0). split; nra.
Qed.

Lemma rotation_comes_to_rest_witness :
  exists k, forall n, (k <= n)%nat -> ticks n dragged = ticks k dragged.
Proof.
  apply (@rotation_comes_to_rest dragged).
  apply reach_mousemove, reach_mousedown, reach_initial.
Defined.

(** X14.  The pointer handlers.  After a press and two moves the angular
    velocities are the last displacement times [dragSensitivity]: the
    vertical one for [velX], the horizontal one, negated, for [velY]; once
    the button is released a move keeps both velocities and only records the
    cursor position.  No pointer event touches the rotation matrix or the
    vertices. *)
Theorem drag_sets_velocity (s : state) (e0 e1 e2 e3 : MouseEvent) :
  let s2 := mousemove e2 (mousemove e1 (mousedown e0 s)) in
  velX s2 = Fin ((clientY e2 - clientY e1) * 0.01)
  /\ velY s2 = Fin ((clientX e2 - clientX e1) * - 0.01)
  /\ velX (mousemove e3 (mouseup s2)) = velX s2
  /\ velY (mousemove e3 (mouseup s2)) = velY s2
  /\ rotationMatrix (mousemove e3 (mouseup s2)) = rotationMatrix s
  /\ vertices (mousemove e3 (mouseup s2)) = vertices s
  /\ mouseX (mousemove e3 (mouseup s2)) = Fin (clientX e3)
  /\ mouseY (mousemove e3 (mouseup s2)) = Fin (clientY e3).
Proof.
  cbv zeta. unfold mousemove, mousedown, mouseup, dragSensitivity; simpl.
  repeat split; f_equal; lra.
Qed.

Section CoastFacts.

Lemma flat_ext (A B : Mat.mat) : Mat.eq3 A B -> Mat.flat A = Mat.flat B.
Proof.
  intros H. apply eq3_elim in H. decompose [and] H. unfold Mat.flat.
  repeat (apply f_equal2; [apply f_equal; assumption |]). reflexivity.
Qed.

Lemma coast_angle_closed (w : R) (k : nat) :
  coast_angle w k = w * (1 - 0.99 ^ k) / 0.01.
Proof.
  induction k as [| k IH]; [cbn [coast_angle pow]; field; try lra |]. cbn [coast_angle]. rewrite IH.
  change (0.99 ^ S k) with (0.99 * 0.99 ^ k).
  generalize (0.99 ^ k). intros p. lra.
Qed.

Lemma turn_about_Y (A : Mat.mat) (a b : R) :
  Mat.flat (Mat.mul (Mat.Ry b) (Mat.mul (Mat.Rx 0) (Mat.mul (Mat.Ry a) A)))
  = Mat.flat (Mat.mul (Mat.Ry (a + b)) A).
Proof.
  apply flat_ext, eq3_intro;
    unfold Mat.mul, Mat.Rx, Mat.Ry; simpl;
    rewrite ?cos_plus, ?sin_plus, ?cos_0, ?sin_0; ring.
Qed.

Lemma turn_about_X (A : Mat.mat) (a b : R) :
  Mat.flat (Mat.mul (Mat.Ry 0) (Mat.mul (Mat.Rx b) (Mat.mul (Mat.Rx a) A)))
  = Mat.flat (Mat.mul (Mat.Rx (a + b)) A).
Proof.
  apply flat_ext, eq3_intro;
    unfold Mat.mul, Mat.Rx, Mat.Ry; simpl;
    rewrite ?cos_plus, ?sin_plus, ?cos_0, ?sin_0; ring.
Qed.

Lemma turn_zero (A : Mat.mat) :
  Mat.flat A = Mat.flat (Mat.mul (Mat.Ry 0) A)
  /\ Mat.flat A = Mat.flat (Mat.mul (Mat.Rx 0) A).
Proof.
  split; apply flat_ext, eq3_intro;
    unfold Mat.mul, Mat.Rx, Mat.Ry; simpl; rewrite ?cos_0, ?sin_0; ring.
Qed.

End CoastFacts.

(** X13.  Coasting about one axis.  When [velX] is zero, [k] integrating
    ticks turn the model about the Y axis by the sum of the velocities of
    these ticks, [w + w * 0.99 + ... + w * 0.99 ^ (k - 1)], which is
    [w * (1 - 0.99 ^ k) / 0.01]; likewise about the X axis when [velY] is
    zero.  A coast therefore never turns the model by more than a hundred
    times the velocity it started with. *)
Theorem coasting_about_one_axis (k : nat) (s : state) (w : R) (A : Mat.mat) :
  rotationMatrix s = Mat.flat A ->
  (forall j, (j < k)%nat ->
     integrating (velX (ticks j s)) (velY (ticks j s)) = true) ->
  (velX s = Fin 0 -> velY s = Fin w ->
   rotationMatrix (ticks k s)
   = multiplyMatrices (rotationMatrixY (Fin (coast_angle w k))) (Mat.flat A))
  /\ (velX s = Fin w -> velY s = Fin 0 ->
      rotationMatrix (ticks k s)
      = multiplyMatrices (rotationMatrixX (Fin (coast_angle w k))) (Mat.flat A))
  /\ coast_angle w k = w * (1 - 0.99 ^ k) / 0.01
  /\ Rabs (coast_angle w k) <= 100 * Rabs w.
Proof.
  intros HA Hint. split; [| split; [| split]].
  - intros Hx Hy.
    assert (G : rotationMatrix (ticks k s)
                = Mat.flat (Mat.mul (Mat.Ry (coast_angle w k)) A)
                /\ velX (ticks k s) = Fin 0
                /\ velY (ticks k s) = Fin (w * 0.99 ^ k)).
    { induction k as [| k IH].
      - simpl. rewrite HA, Hx, Hy. repeat split; [apply turn_zero | f_equal; lra].
      - destruct IH as (M & Vx & Vy); [intros j Hj; apply Hint; lia |].
        assert (E := Hint k (Nat.lt_succ_diag_r k)).
        rewrite ticks_last.
        rewrite (rotation_inertia_matrix _ E), (rotation_inertia_velX _ E),
          (rotation_inertia_velY _ E), M, Vx, Vy.
        rewrite rotationMatrixX_flat, rotationMatrixY_flat, !multiplyMatrices_flat.
        repeat split.
        + cbn [coast_angle]. apply turn_about_Y.
        + simpl. f_equal. lra.
        + simpl. f_equal. ring. }
    destruct G as (M & _). rewrite M, rotationMatrixY_flat, multiplyMatrices_flat.
    reflexivity.
  - intros Hx Hy.
    assert (G : rotationMatrix (ticks k s)
                = Mat.flat (Mat.mul (Mat.Rx (coast_angle w k)) A)
                /\ velX (ticks k s) = Fin (w * 0.99 ^ k)
                /\ velY (ticks k s) = Fin 0).
    { induction k as [| k IH].
      - simpl. rewrite HA, Hx, Hy. repeat split; [apply turn_zero | f_equal; lra].
      - destruct IH as (M & Vx & Vy); [intros j Hj; apply Hint; lia |].
        assert (E := Hint k (Nat.lt_succ_diag_r k)).
        rewrite ticks_last.
        rewrite (rotation_inertia_matrix _ E), (rotation_inertia_velX _ E),
          (rotation_inertia_velY _ E), M, Vx, Vy.
        rewrite rotationMatrixX_flat, rotationMatrixY_flat, !multiplyMatrices_flat.
        repeat split.
        + cbn [coast_angle]. apply turn_about_X.
        + simpl. f_equal. ring.
        + simpl. f_equal. lra. }
    destruct G as (M & _). rewrite M, rotationMatrixX_flat, multiplyMatrices_flat.
    reflexivity.
  - apply coast_angle_closed.
  - rewrite coast_angle_closed.
    assert (P : 0 < 0.99 ^ k) by (apply pow_lt; lra).
    assert (Q : 0.99 ^ k <= 1).
    { rewrite <- (pow1 k). apply pow_incr. lra. }
    set (p := 0.99 ^ k) in *. clearbody p.
    replace (w * (1 - p) / 0.01) with (w * (100 * (1 - p))) by lra.
    rewrite Rabs_mult, (Rabs_pos_eq (100 * (1 - p))) by lra.
    pose proof (Rabs_pos w). nra.
Qed.

Lemma coasting_about_one_axis_witness :
  rotationMatrix (ticks 2 swiped)
  = multiplyMatrices (rotationMatrixY (Fin (coast_angle (-0.5) 2)))
      (Mat.flat Mat.I3).
Proof.
  assert (Vx : velX swiped = Fin 0) by (simpl; f_equal; lra).
  assert (Vy : velY swiped = Fin (-0.5)) by (simpl; f_equal; lra).
  assert (E0 : integrating (velX swiped) (velY swiped) = true).
  { rewrite Vx, Vy. apply integrating_fin. right.
    unfold Rabs. destruct Rcase_abs; lra. }
  refine (proj1 (@coasting_about_one_axis 2 swiped (-0.5) Mat.I3 _ _) Vx Vy).
  - reflexivity.
  - intros [| [| j]] Hj; [exact E0 | | lia].
    change (ticks 1 swiped) with (rotation_inertia swiped).
    rewrite (rotation_inertia_velX _ E0), (rotation_inertia_velY _ E0), Vx, Vy.
    apply integrating_fin. right.
    unfold Rabs. destruct Rcase_abs; lra.
Defined.

(* ================================================================= *)
(** ** Further properties of the projection *)

Section ProjectionFacts.





End ProjectionFacts.

(* ================================================================= *)
(** ** Further properties of the model loader *)

Section NormalizationFacts.














Lemma parse_counts (ls : list string) (acc : list (list num) * list (list index)) :
  List.length (fst (fold_left parse_line ls acc))
  = (List.length (fst acc)
     + List.length (filter (fun l => startsWith "v " (trim l)) ls))%nat
  /\ List.length (snd (fold_left parse_line ls acc))
     = (List.length (snd acc)
        + List.length (filter (fun l => startsWith "f " (trim l)) ls))%nat
  /\ (Forall (fun v => List.length v = 3%nat) (fst acc) ->
      Forall (fun v => List.length v = 3%nat) (fst (fold_left parse_line ls acc))).
Proof.
  revert acc. induction ls as [| l ls IH]; intros [verts facs].
  - simpl. repeat split; auto; lia.
  - cbn [fold_left filter]. unfold parse_line at 2 4 6.
    destruct (startsWith "v " (trim l)) eqn:V.
    + assert (F : startsWith "f " (trim l) = false).
      { destruct (startsWith "f " (trim l)) eqn:F; [| reflexivity].
        unfold startsWith in V, F. apply prefix_correct in V, F.
        simpl String.length in V, F. rewrite V in F. discriminate. }
      rewrite F. specialize (IH ((verts ++ [[parseFloat (part (split_ws (trim l)) 1);
                  parseFloat (part (split_ws (trim l)) 2);
                  parseFloat (part (split_ws (trim l)) 3)]])%list, facs)).
      destruct IH as (I1 & I2 & I3). cbn [fst snd] in *.
      rewrite I1, I2, length_app. simpl. repeat split; try lia.
      intros Hv. apply I3. apply Forall_app. split; [exact Hv |].
      constructor; [reflexivity | constructor].
    + destruct (startsWith "f " (trim l)) eqn:F.
      * match goal with
        | |- context [fold_left parse_line ls ?a] => specialize (IH a)
        end.
        destruct IH as (I1 & I2 & I3). cbn [fst snd] in *.
        rewrite I1, I2, length_app. simpl. repeat split; try lia. exact I3.
      * specialize (IH (verts, facs)). destruct IH as (I1 & I2 & I3).
        cbn [fst snd] in *. repeat split; assumption.
Qed.

End NormalizationFacts.

Section FaceTokens.

Lemma split_ws_from_inhabited (s : string) (b : bool) : split_ws_from b s <> [].
Proof.
  revert b. induction s as [| c s IH]; intros b; cbn [split_ws_from].
  - discriminate.
  - destruct (isWhiteSpace c).
    + destruct b; [apply IH | discriminate].
    + destruct (split_ws_from false s); discriminate.
Qed.

Lemma face_tokens (l : string) :
  startsWith "f " l = true -> skipn 1 (split_ws l) <> [].
Proof.
  intros H. unfold startsWith in H. apply prefix_correct in H.
  destruct l as [| c [| d rest]]; try discriminate H.
  assert (E : c = "f"%char /\ d = " "%char).
  { cbn [String.length substring] in H. destruct rest; now inversion H. }
  destruct E as [-> ->].
  unfold split_ws. cbn [split_ws_from].
  change (isWhiteSpace "f") with false. change (isWhiteSpace " ") with true.
  cbv iota. cbn [skipn]. apply split_ws_from_inhabited.
Qed.

Lemma parse_faces_inhabited (ls : list string)
    (acc : list (list num) * list (list index)) :
  Forall (fun f => f <> []) (snd acc) ->
  Forall (fun f => f <> []) (snd (fold_left parse_line ls acc)).
Proof.
  revert acc. induction ls as [| l ls IH]; intros [verts facs] H; [exact H |].
  cbn [fold_left]. apply IH. unfold parse_line.
  destruct (startsWith "v " (trim l)); [exact H |].
  destruct (startsWith "f " (trim l)) eqn:F; [| exact H].
  cbn [snd] in *. apply Forall_app. split; [exact H |].
  constructor; [| constructor].
  apply face_tokens in F. destruct (skipn 1 (split_ws (trim l)));
    [contradiction | discriminate].
Qed.

End FaceTokens.

Section ReachFacts.


Lemma quad_parse :
  parse_lines quad
  = (map vertex [(0, 0, 0); (1, 0, 0); (1, 1, 0); (0, 1, 0)],
     [face [0; 1; 2]; face [0; 2; 3]]%nat).
Proof. eval_parse. Qed.



End ReachFacts.









(** X6.  One bad coordinate spoils the whole model: if any of the three
    coordinates of any parsed vertex is [NaN], every coordinate of every
    vertex [loadOBJ] returns is [NaN]; the faces are returned as parsed. *)
Theorem nan_coordinate_spreads (text : string) (v : list num) (k : nat) :
  In v (fst (parse_lines text)) -> (k < 3)%nat -> elt v k = NaN ->
  fst (loadOBJ text)
  = map (fun _ => [NaN; NaN; NaN]) (fst (parse_lines text))
  /\ snd (loadOBJ text) = snd (parse_lines text).
Proof.
  intros Hv Hk Hn. unfold loadOBJ.
  destruct (parse_lines text) as [verts facs]. cbn [fst snd] in *.
  split; [| reflexivity]. now apply (@center_and_scale_nan verts v k).
Qed.

Lemma nan_coordinate_spreads_witness :
  fst (loadOBJ malformed)
  = map (fun _ => [NaN; NaN; NaN]) (fst (parse_lines malformed)).
Proof.
  apply (@nan_coordinate_spreads malformed [Fin 1; NaN; Fin 2] 1).
  - replace (fst (parse_lines malformed))
      with [[Fin 0; Fin 0; Fin 0]; [Fin 1; NaN; Fin 2]; [Fin 3; Fin 4; NaN]].
    + right; now left.
    + symmetry.
      change [[Fin 0; Fin 0; Fin 0]; [Fin 1; NaN; Fin 2]; [Fin 3; Fin 4; NaN]]
        with (fst ([[Fin 0; Fin 0; Fin 0]; [Fin 1; NaN; Fin 2]; [Fin 3; Fin 4; NaN]],
                   [face [0%nat; 1%nat; 2%nat]])).
      f_equal. eval_parse.
  - lia.
  - reflexivity.
Defined.



(** X1.  [loadOBJ] returns one vertex for every line of the text that,
    trimmed, starts with [v ] and one face for every line that starts with
    [f ], whatever else the lines hold; every vertex has three coordinates
    and every face at least one index. *)
Theorem loader_counts_lines (text : string) :
  List.length (fst (loadOBJ text))
  = List.length (filter (fun l => startsWith "v " (trim l)) (split "010" text))
  /\ List.length (snd (loadOBJ text))
     = List.length (filter (fun l => startsWith "f " (trim l)) (split "010" text))
  /\ Forall (fun v => List.length v = 3%nat) (fst (loadOBJ text))
  /\ Forall (fun f => f <> []) (snd (loadOBJ text)).
Proof.
  pose proof (parse_counts (split "010" text) ([], [])) as (C1 & C2 & C3).
  pose proof (@parse_faces_inhabited (split "010" text) ([], [])
                (Forall_nil _)) as C4.
  fold (parse_lines text) in C1, C2, C3, C4. unfold loadOBJ.
  destruct (parse_lines text) as [verts facs]. cbn [fst snd] in *.
  split; [| split; [exact C2 | split; [| exact C4]]].
  - unfold center_and_scale. now rewrite length_map.
  - unfold center_and_scale. apply Forall_forall. intros p Hp.
    apply in_map_iff in Hp. destruct Hp as (q & <- & _). reflexivity.
Qed.

(* ================================================================= *)
(** ** Further properties of the styles *)

Section StyleClosedForms.

Lemma clamp_monotone (lo hi a b : R) : a <= b -> clamp lo hi a <= clamp lo hi b.
Proof.
  intros H. unfold clamp, Rmin, Rmax.
  repeat (destruct (Rle_dec _ _)); lra.
Qed.

Lemma dotCursorFactor_range (x y : R) (z : num) (mx my : R) :
  exists cf, dotCursorFactor [Fin x; Fin y; z] (Fin mx) (Fin my) = Fin cf
             /\ 0 <= cf <= 1.
Proof.
  rewrite dotCursorFactor_fin. eexists. split; [reflexivity |].
  assert (0 <= sqrt ((x - mx) * (x - mx) + (y - my) * (y - my)) / 150).
  { apply Rmult_le_pos; [apply sqrt_pos | lra]. }
  unfold Rmin; destruct (Rle_dec _ 1); lra.
Qed.

Lemma dotStyle_closed (x y z mx my cf : R) :
  dotCursorFactor [Fin x; Fin y; Fin z] (Fin mx) (Fin my) = Fin cf ->
  dotStyle [Fin x; Fin y; Fin z] (Fin mx) (Fin my)
  = (Fin (clamp 2 15 (- z * 0.05 + -0.3 + boost z cf 10)),
     Fin (clamp 0.05 1 (- z * 0.003 + 0.01 + boost z cf 1))).
Proof.
  intros F. unfold dotStyle, dotCursorEffects. cbv zeta. rewrite F.
  cbn [elt nth]. unfold boost, clamp.
  unfold dotCursorZCutoff, dotCursorSizeBoost, dotCursorAlphaBoost,
    dotSizeDepthEffect, dotSizeOffset, dotAlphaDepthEffect, dotAlphaOffset,
    dotMinSize, dotMaxSize, dotMinAlpha, dotMaxAlpha.
  change (- Fin z >? Fin 0)%js with (Rltb 0 (- z)). unfold Rltb.
  destruct (Rlt_dec 0 (- z)); cbn [add sub mul neg];
    rewrite !max_fin, !min_fin;
    apply f_equal2; apply f_equal; f_equal; f_equal; lra.
Qed.

Lemma boost_monotone (za zb cf b : R) :
  zb <= za -> 0 <= cf <= 1 -> 0 <= b -> boost za cf b <= boost zb cf b.
Proof.
  intros Hz Hc Hb. unfold boost.
  destruct (Rlt_dec 0 (- za)), (Rlt_dec 0 (- zb)); try lra; nra.
Qed.

Lemma lineCursorFactor_fin (ax ay mx my : R) :
  lineCursorFactor (Fin ax) (Fin ay) (Fin mx) (Fin my)
  = Fin (Rmin (sqrt ((ax - mx) * (ax - mx) + (ay - my) * (ay - my)) / 100) 1).
Proof.
  unfold lineCursorFactor, lineCursorEffectRadius. cbv zeta.
  change (Fin ax - Fin mx)%js with (Fin (ax - mx)).
  change (Fin ay - Fin my)%js with (Fin (ay - my)).
  apply cursor_factor_fin; lra.
Qed.

End StyleClosedForms.

(** X16.  Of two dots at the same place on the screen, the one nearer to
    the viewer (of smaller rotated depth coordinate) is drawn with at least
    the radius and at least the opacity of the other, wherever the cursor
    is. *)
Theorem nearer_dots_are_not_smaller (x y za zb mx my : R) :
  zb <= za ->
  exists ra aa rb ab,
    dotStyle [Fin x; Fin y; Fin za] (Fin mx) (Fin my) = (Fin ra, Fin aa)
    /\ dotStyle [Fin x; Fin y; Fin zb] (Fin mx) (Fin my) = (Fin rb, Fin ab)
    /\ ra <= rb /\ aa <= ab.
Proof.
  intros Hz.
  destruct (dotCursorFactor_range x y (Fin za) mx my) as (cf & F & Hc).
  assert (F' : dotCursorFactor [Fin x; Fin y; Fin zb] (Fin mx) (Fin my) = Fin cf)
    by exact F.
  rewrite (dotStyle_closed _ _ _ _ _ F), (dotStyle_closed _ _ _ _ _ F').
  eexists _, _, _, _. split; [reflexivity | split; [reflexivity |]].
  pose proof (@boost_monotone za zb cf 10 Hz Hc ltac:(lra)).
  pose proof (@boost_monotone za zb cf 1 Hz Hc ltac:(lra)).
  split; apply clamp_monotone; lra.
Qed.

Lemma nearer_dots_are_not_smaller_witness :
  exists ra aa rb ab,
    dotStyle [Fin 400; Fin 300; Fin 100] (Fin 400) (Fin 300) = (Fin ra, Fin aa)
    /\ dotStyle [Fin 400; Fin 300; Fin (-100)] (Fin 400) (Fin 300) = (Fin rb, Fin ab)
    /\ ra <= rb /\ aa <= ab.
Proof.
  apply (@nearer_dots_are_not_smaller 400 300 100 (-100) 400 300). lra.
Defined.

(** X17.  The opacity of a face outline, for a face whose mean projected
    vertex is at distance [d] from the cursor: [1 - d / 100] when the face is
    in front (mean depth coordinate below zero) and within 100 pixels;
    zero at 100 pixels or more, and zero for every face at the back. *)
Theorem lines_show_near_the_cursor (ax ay az mx my : R) :
  let d := sqrt ((ax - mx) * (ax - mx) + (ay - my) * (ay - my)) in
  (az < 0 -> d <= 100 ->
   lineAlpha (Fin ax) (Fin ay) (Fin az) (Fin mx) (Fin my) = Fin (1 - d / 100))
  /\ (100 <= d ->
      lineAlpha (Fin ax) (Fin ay) (Fin az) (Fin mx) (Fin my) = Fin 0)
  /\ (0 <= az ->
      lineAlpha (Fin ax) (Fin ay) (Fin az) (Fin mx) (Fin my) = Fin 0).
Proof.
  intros d.
  assert (D : 0 <= d) by apply sqrt_pos.
  assert (L : forall e, 0 <= e <= 1 ->
            Math_min [Math_max [(lineAlphaOffset + Fin e)%js; lineMinAlpha];
                      lineMaxAlpha] = Fin e).
  { intros e He. unfold lineAlphaOffset, lineMinAlpha, lineMaxAlpha.
    change (Fin 0 + Fin e)%js with (Fin (0 + e)).
    rewrite max_fin, min_fin. f_equal.
    unfold Rmin, Rmax. repeat (destruct (Rle_dec _ _)); lra. }
  unfold lineAlpha, lineCursorEffect. cbv zeta.
  rewrite lineCursorFactor_fin. fold d.
  unfold lineCursorZCutoff, lineCursorAlphaBoost.
  change (Fin az <? Fin 0)%js with (Rltb az 0). unfold Rltb.
  split; [| split].
  - intros Hz Hd. destruct (Rlt_dec az 0); [| lra].
    change ((Fin 1 - Fin (Rmin (d / 100) 1)) * Fin 1)%js
      with (Fin ((1 - Rmin (d / 100) 1) * 1)).
    rewrite Rmin_left by lra.
    replace ((1 - d / 100) * 1) with (1 - d / 100) by ring.
    apply L. lra.
  - intros Hd. destruct (Rlt_dec az 0).
    + change ((Fin 1 - Fin (Rmin (d / 100) 1)) * Fin 1)%js
        with (Fin ((1 - Rmin (d / 100) 1) * 1)).
      rewrite Rmin_right by lra.
      replace ((1 - 1) * 1) with 0 by ring. apply L; lra.
    + apply L; lra.
  - intros Hz. destruct (Rlt_dec az 0); [lra |]. apply L; lra.
Qed.

Lemma lines_show_near_the_cursor_witness :
  lineAlpha (Fin 30) (Fin 40) (Fin (-1)) (Fin 0) (Fin 0)
  = Fin (1 - sqrt ((30 - 0) * (30 - 0) + (40 - 0) * (40 - 0)) / 100)
  /\ lineAlpha (Fin 30) (Fin 40) (Fin 5) (Fin 0) (Fin 0) = Fin 0.
Proof.
  split.
  - apply (proj1 (lines_show_near_the_cursor 30 40 (-1) 0 0)); [lra |].
    replace ((30 - 0) * (30 - 0) + (40 - 0) * (40 - 0)) with (50 * 50) by lra.
    rewrite sqrt_square; lra.
  - apply (proj2 (proj2 (lines_show_near_the_cursor 30 40 5 0 0))). lra.
Defined.

(* ================================================================= *)
(** ** Properties of a frame *)

Section FrameFacts.

Lemma lookup_valid (projected : list (list num)) (idx : index) :
  valid_index (List.length projected) idx = true ->
  exists p, lookup projected idx = Some p.
Proof.
  destruct idx as [z |]; [| discriminate]. simpl.
  intros H. apply andb_prop in H. destruct H as [H0 H1].
  rewrite H0. apply Z.ltb_lt in H1. apply Z.leb_le in H0.
  destruct (nth_error projected (Z.to_nat z)) eqn:E; [eauto |].
  apply nth_error_None in E. lia.
Qed.

Lemma lookup_invalid (projected : list (list num)) (idx : index) :
  valid_index (List.length projected) idx = false ->
  lookup projected idx = None.
Proof.
  destruct idx as [z |]; [| reflexivity]. simpl.
  intros H. destruct (Z.leb_spec 0 z); [| reflexivity].
  simpl in H. apply Z.ltb_ge in H.
  apply nth_error_None. lia.
Qed.

Lemma reduce_none (projected : list (list num)) (k : nat) (f : list index) :
  fold_left
    (fun acc idx =>
       match acc, lookup projected idx with
       | Some sum, Some p => Some (sum + elt p k)%js
       | _, _ => None
       end) f None = None.
Proof. induction f as [| idx f IH]; [reflexivity | exact IH]. Qed.

Lemma reduce_sum_valid (projected : list (list num)) (k : nat) (f : list index) :
  forall a,
    (forallb (valid_index (List.length projected)) f = true ->
     exists b,
       fold_left
         (fun acc idx =>
            match acc, lookup projected idx with
            | Some sum, Some p => Some (sum + elt p k)%js
            | _, _ => None
            end) f (Some a) = Some b)
    /\ (forallb (valid_index (List.length projected)) f = false ->
        fold_left
          (fun acc idx =>
             match acc, lookup projected idx with
             | Some sum, Some p => Some (sum + elt p k)%js
             | _, _ => None
             end) f (Some a) = None).
Proof.
  induction f as [| idx f IH]; intros a.
  - split; [intros _; now exists a | discriminate].
  - cbn [forallb fold_left].
    destruct (valid_index (List.length projected) idx) eqn:V.
    + destruct (lookup_valid _ _ V) as [p ->]. apply IH.
    + rewrite (lookup_invalid _ _ V). split; [discriminate |].
      intros _. apply reduce_none.
Qed.

Lemma average_defined (projected : list (list num)) (k : nat) (f : list index) :
  (forallb (valid_index (List.length projected)) f = true ->
   exists a, average projected k f = Some a)
  /\ (forallb (valid_index (List.length projected)) f = false ->
      average projected k f = None).
Proof.
  unfold average, reduce_sum.
  destruct (reduce_sum_valid projected k f (Fin 0)) as [Y N]. split.
  - intros H. destruct (Y H) as [b ->]. eauto.
  - intros H. now rewrite (N H).
Qed.

Lemma draw_face_defined (s : state) (projected : list (list num))
    (f : list index) :
  (drawable (List.length projected) f = true ->
   exists alpha path, draw_face s projected f = Some (Stroke alpha path))
  /\ (drawable (List.length projected) f = false ->
      draw_face s projected f = None).
Proof.
  unfold draw_face.
  destruct (average_defined projected 0 f) as [Y0 N0].
  destruct (average_defined projected 1 f) as [Y1 N1].
  destruct (average_defined projected 2 f) as [Y2 N2].
  destruct f as [| idx f]; [split; [discriminate |] |].
  - intros _.
    destruct (average projected 0 []), (average projected 1 []),
      (average projected 2 []); reflexivity.
  - unfold drawable. split; intros H.
    + destruct (Y0 H) as [a0 ->], (Y1 H) as [a1 ->], (Y2 H) as [a2 ->]. eauto.
    + now rewrite (N0 H).
Qed.

Lemma draw_faces_defined (s : state) (projected : list (list num))
    (fs : list (list index)) :
  (forallb (drawable (List.length projected)) fs = true ->
   exists lines, draw_faces s projected fs = Some lines
                 /\ List.length lines = List.length fs
                 /\ forallb is_stroke lines = true)
  /\ (forallb (drawable (List.length projected)) fs = false ->
      draw_faces s projected fs = None).
Proof.
  induction fs as [| f fs [IY IN]].
  - split; [| discriminate]. intros _. now exists [].
  - cbn [forallb draw_faces].
    destruct (draw_face_defined s projected f) as [Y N].
    destruct (drawable (List.length projected) f) eqn:D.
    + destruct (Y eq_refl) as (alpha & path & ->). split.
      * intros H. destruct (IY H) as (lines & -> & L & S).
        exists (Stroke alpha path :: lines). simpl. rewrite L, S. auto.
      * intros H. now rewrite (IN H).
    + rewrite (N eq_refl). split; [discriminate | reflexivity].
Qed.

Lemma rotation_inertia_keeps (s : state) :
  vertices (rotation_inertia s) = vertices s
  /\ faces (rotation_inertia s) = faces s
  /\ mouseX (rotation_inertia s) = mouseX s
  /\ mouseY (rotation_inertia s) = mouseY s
  /\ canvas_width (rotation_inertia s) = canvas_width s
  /\ canvas_height (rotation_inertia s) = canvas_height s
  /\ dragging (rotation_inertia s) = dragging s.
Proof.
  unfold rotation_inertia. destruct (integrating (velX s) (velY s));
    repeat split.
Qed.

End FrameFacts.

(** X18.  A frame.  If every face has an index and all its indices are
    indices of the vertex array, [animate] draws one outline per face and
    then one dot per vertex, in this order; otherwise the call throws and
    there is no frame.  Either way the call leaves vertices, faces and
    cursor position as they were. *)
Theorem frame_is_drawn_or_aborted (s : state) :
  (forallb (drawable (List.length (vertices s))) (faces s) = true ->
   exists lines dots,
     snd (animate s) = Some (lines ++ dots)%list
     /\ List.length lines = List.length (faces s)
     /\ forallb is_stroke lines = true
     /\ List.length dots = List.length (vertices s)
     /\ forallb (fun d => negb (is_stroke d)) dots = true)
  /\ (forallb (drawable (List.length (vertices s))) (faces s) = false ->
      snd (animate s) = None)
  /\ vertices (fst (animate s)) = vertices s
  /\ faces (fst (animate s)) = faces s
  /\ mouseX (fst (animate s)) = mouseX s
  /\ mouseY (fst (animate s)) = mouseY s.
Proof.
  destruct (rotation_inertia_keeps s) as (Kv & Kf & Kx & Ky & _).
  assert (Lp : List.length (project_vertices (rotation_inertia s))
               = List.length (vertices s)).
  { unfold project_vertices. now rewrite length_map, Kv. }
  destruct (draw_faces_defined (rotation_inertia s)
              (project_vertices (rotation_inertia s)) (faces (rotation_inertia s)))
    as [Y N].
  rewrite Lp, Kf in Y, N.
  unfold animate. cbv zeta. cbn [fst snd]. rewrite Kf.
  split; [| split; [| repeat split; assumption]].
  - intros H. destruct (Y H) as (lines & -> & L & S).
    exists lines, (map (draw_vertex (rotation_inertia s))
                     (project_vertices (rotation_inertia s))).
    split; [reflexivity | split; [exact L | split; [exact S |]]].
    rewrite length_map. split; [exact Lp |].
    apply forallb_forall. intros d Hd. apply in_map_iff in Hd.
    destruct Hd as (p & <- & _). unfold draw_vertex.
    now destruct (dotStyle p _ _).
  - intros H. now rewrite (N H).
Qed.

Lemma frame_is_drawn_or_aborted_witness :
  (exists lines dots,
     snd (animate (loaded (fst (loadOBJ quad)) (snd (loadOBJ quad)) dragged))
     = Some (lines ++ dots)%list
     /\ List.length lines = 2%nat /\ List.length dots = 4%nat)
  /\ snd (animate (loaded [] [[Some 0%Z]] dragged)) = None.
Proof.
  split.
  - destruct (proj1 (frame_is_drawn_or_aborted
                       (loaded (fst (loadOBJ quad)) (snd (loadOBJ quad)) dragged)))
      as (lines & dots & E & L & _ & D & _).
    + unfold loaded, loadOBJ; cbn [vertices faces]. rewrite quad_parse.
      cbn [fst snd]. unfold center_and_scale. rewrite !length_map. reflexivity.
    + exists lines, dots. split; [exact E | split].
      * rewrite L. unfold loaded, loadOBJ; cbn [faces]. now rewrite quad_parse.
      * rewrite D. unfold loaded, loadOBJ; cbn [vertices]. rewrite quad_parse.
        cbn [fst]. unfold center_and_scale. now rewrite !length_map.
  - apply (proj1 (proj2 (frame_is_drawn_or_aborted
                           (loaded [] [[Some 0%Z]] dragged)))).
    reflexivity.
Defined.

(* ================================================================= *)
(** ** Writing and reading a model *)

Section NumeralFacts.

Local Open Scope string_scope.









End NumeralFacts.

Section RoundTrip.

Local Open Scope string_scope.

Lemma append_empty (s : string) : s ++ EmptyString = s.
Proof. induction s as [| c s IH]; [reflexivity | simpl; now rewrite IH]. Qed.

Lemma append_assoc (a b c : string) : (a ++ b) ++ c = a ++ (b ++ c).
Proof. induction a as [| x a IH]; [reflexivity | simpl; now rewrite IH]. Qed.

Lemma all_chars_app (P : ascii -> bool) (a b : string) :
  all_chars P (a ++ b) = all_chars P a && all_chars P b.
Proof.
  induction a as [| c a IH]; [reflexivity |]. simpl.
  now rewrite IH, andb_assoc.
Qed.



Lemma digit_of_digit (c : ascii) :
  is_digit c = true -> exists d, digit_of c = Some d.
Proof. unfold is_digit. destruct (digit_of c); [eauto | discriminate]. Qed.







(** *** Tokens and lines *)














(** *** Elements *)











End RoundTrip.



(* ================================================================= *)
(** ** Properties of the folder listings *)

Section ListingFacts.

Local Open Scope string_scope.

(** *** Order of strings *)

Lemma ascii_compare_lt (a b : ascii) :
  Ascii.compare a b = Lt <-> (N_of_ascii a < N_of_ascii b)%N.
Proof. unfold Ascii.compare. apply N.compare_lt_iff. Qed.

Lemma ascii_compare_eq (a b : ascii) : Ascii.compare a b = Eq <-> a = b.
Proof.
  split; [apply Ascii.compare_eq_iff |]. intros ->.
  unfold Ascii.compare. apply N.compare_refl.
Qed.

Lemma compare_refl (s : string) : String.compare s s = Eq.
Proof.
  induction s as [| c s IH]; [reflexivity |]. simpl.
  now rewrite (proj2 (ascii_compare_eq c c) eq_refl).
Qed.

Lemma compare_lt_trans (a b c : string) :
  String.compare a b = Lt -> String.compare b c = Lt -> String.compare a c = Lt.
Proof.
  revert b c. induction a as [| x a IH]; intros [| y b] [| z c]; simpl;
    try discriminate; try reflexivity.
  destruct (Ascii.compare x y) eqn:Exy; try discriminate;
    destruct (Ascii.compare y z) eqn:Eyz; try discriminate; intros H1 H2.
  - apply ascii_compare_eq in Exy, Eyz. subst.
    rewrite (proj2 (ascii_compare_eq z z) eq_refl). now apply (IH b).
  - apply ascii_compare_eq in Exy. subst. now rewrite Eyz.
  - apply ascii_compare_eq in Eyz. subst. now rewrite Exy.
  - apply ascii_compare_lt in Exy, Eyz.
    assert (L : (N_of_ascii x < N_of_ascii z)%N)
      by (eapply N.lt_trans; eassumption).
    now rewrite (proj2 (ascii_compare_lt x z) L).
Qed.

Lemma leb_cases (a b : string) :
  String.leb a b = true <-> String.compare a b = Lt \/ a = b.
Proof.
  unfold String.leb. split.
  - destruct (String.compare a b) eqn:E; try discriminate; intros _;
      [right; now apply String.compare_eq_iff | now left].
  - intros [-> | ->]; [reflexivity | now rewrite compare_refl].
Qed.

Lemma leb_trans (a b c : string) :
  String.leb a b = true -> String.leb b c = true -> String.leb a c = true.
Proof.
  rewrite !leb_cases. intros [H1 | ->] [H2 | ->]; auto.
  left. now apply (compare_lt_trans a b c).
Qed.

Lemma leb_refl (a : string) : String.leb a a = true.
Proof. apply leb_cases. now right. Qed.

(** The first element of a sorted array is a least element of the array. *)
Lemma sort_first (l : list string) :
  l <> [] ->
  exists first rest,
    sort l = first :: rest /\ In first l
    /\ forall g, In g l -> String.leb first g = true.
Proof.
  induction l as [| x l IH]; [contradiction | intros _].
  destruct l as [| y l].
  - exists x, []. repeat split; [now left |].
    intros g [<- | []]. apply leb_refl.
  - destruct IH as (f & rest & E & Hin & Hmin); [discriminate |].
    change (sort (x :: y :: l)) with (insert x (sort (y :: l))).
    rewrite E. cbn [insert].
    destruct (String.leb x f) eqn:L.
    + exists x, (f :: rest). repeat split; [now left |].
      intros g [<- | Hg]; [apply leb_refl |].
      apply (leb_trans x f g L), Hmin, Hg.
    + exists f, (insert x rest). repeat split; [now right |].
      intros g [<- | Hg]; [| now apply Hmin].
      destruct (String.leb_total f x) as [T | T]; [exact T | congruence].
Qed.

(** *** Matches *)

Lemma same_char_quote (ic : bool) (c : ascii) :
  same_char ic quote c = true -> c = quote.
Proof.
  unfold same_char, quote.
  destruct ic;
    destruct c as [[|] [|] [|] [|] [|] [|] [|] [|]]; intros H;
    try discriminate H; reflexivity.
Qed.

Lemma same_char_refl (ic : bool) (c : ascii) : same_char ic c c = true.
Proof. unfold same_char. destruct ic; apply Ascii.eqb_refl. Qed.

Lemma literal_self (ic : bool) (p x : string) : strip_literal ic p (p ++ x) = Some x.
Proof.
  induction p as [| c p IH]; [reflexivity |].
  simpl. now rewrite same_char_refl.
Qed.

Lemma literal_exact (p s r : string) :
  strip_literal false p s = Some r -> s = p ++ r.
Proof.
  revert s. induction p as [| c p IH]; intros s; simpl.
  - now intros [= ->].
  - destruct s as [| b s]; [discriminate |]. unfold same_char.
    destruct (Ascii.eqb_spec c b) as [<- | _]; [| discriminate].
    intros H. now rewrite (IH s H).
Qed.

Lemma literal_href (ic : bool) (s r : string) :
  strip_literal ic href s = Some r -> String.get 5 s = Some quote.
Proof.
  unfold href. simpl.
  destruct s as [| c0 [| c1 [| c2 [| c3 [| c4 [| c5 s]]]]]];
    repeat match goal with
           | |- context [if ?b then _ else _] => destruct b eqn:?
           end; try discriminate.
  intros _. simpl.
  match goal with
  | H : same_char ic quote c5 = true |- _ =>
      now rewrite (same_char_quote ic c5 H)
  end.
Qed.

Lemma match_at_quote (ic : bool) (ext s : string) (m : string * nat) :
  match_at ic ext s = Some m -> String.get 5 s = Some quote.
Proof.
  unfold match_at. destruct (strip_literal ic href s) as [r |] eqn:E; [| discriminate].
  intros _. now apply (literal_href ic s E).
Qed.

Lemma get_no_quote (n : nat) (s : string) :
  no_quote s = true -> String.get n s <> Some quote.
Proof.
  revert n. induction s as [| c s IH]; intros n H; [discriminate |].
  unfold no_quote in H. simpl in H. apply andb_prop in H. destruct H as [Hc Hs].
  destruct n as [| n]; simpl.
  - intros [= ->]. unfold not_char in Hc. now rewrite Ascii.eqb_refl in Hc.
  - now apply IH.
Qed.

Lemma no_match_in_ink (ic : bool) (ext v r : string) :
  no_quote v = true -> (6 <= String.length v)%nat ->
  match_at ic ext (v ++ r) = None.
Proof.
  intros Hv Hl. destruct (match_at ic ext (v ++ r)) as [m |] eqn:E;
    [| reflexivity].
  apply match_at_quote in E.
  rewrite <- (append_correct1 v r 5) in E by lia.
  now elim (get_no_quote 5 v Hv).
Qed.

Lemma no_match_without_quote (ic : bool) (ext t : string) :
  no_quote t = true -> match_at ic ext t = None.
Proof.
  intros Ht. destruct (match_at ic ext t) as [m |] eqn:E; [| reflexivity].
  apply match_at_quote in E. now elim (get_no_quote 5 t Ht).
Qed.

Lemma length_append (a b : string) :
  String.length (a ++ b) = (String.length a + String.length b)%nat.
Proof. induction a as [| c a IH]; [reflexivity | simpl; now rewrite IH]. Qed.

(** No match starts in a stretch without double quote that is followed by
    nothing, or by five more characters without double quote. *)
Lemma skip_block (ic : bool) (ext w T : string) :
  no_quote w = true ->
  (T = EmptyString \/ exists v0 r, T = v0 ++ r /\ no_quote v0 = true
                          /\ (5 <= String.length v0)%nat) ->
  matches_from ic ext 0 (w ++ T) = matches_from ic ext 0 T.
Proof.
  intros Hw HT. induction w as [| c w IH]; [reflexivity |].
  assert (Hw' : no_quote w = true).
  { unfold no_quote in *. simpl in Hw. apply andb_prop in Hw. tauto. }
  change (String c w ++ T) with (String c (w ++ T)).
  cbn [matches_from].
  assert (N : match_at ic ext (String c (w ++ T)) = None).
  { destruct HT as [-> | (v0 & r & -> & Hv & Hl)].
    - rewrite append_empty. now apply no_match_without_quote.
    - change (String c (w ++ v0 ++ r)) with (String c w ++ v0 ++ r).
      rewrite <- append_assoc. apply no_match_in_ink.
      + unfold no_quote in *. now rewrite all_chars_app, Hw, Hv.
      + rewrite length_append. simpl. lia. }
  rewrite N. now apply IH.
Qed.

Lemma pass_match (ic : bool) (ext u r : string) :
  matches_from ic ext (String.length u) (u ++ r) = matches_from ic ext 0 r.
Proof. induction u as [| c u IH]; [reflexivity | exact IH]. Qed.

Lemma until_quote_run (name r : string) :
  no_quote name = true ->
  until_quote (name ++ String quote r) = (name, String quote r).
Proof.
  intros H. induction name as [| c name IH]; [reflexivity |].
  unfold no_quote in *. simpl in H. apply andb_prop in H. destruct H as [Hc Hn].
  unfold not_char in Hc. apply negb_true_iff in Hc.
  cbn [append until_quote]. rewrite Hc, (IH Hn). reflexivity.
Qed.

Lemma until_quote_no_quote (s run rest : string) :
  until_quote s = (run, rest) -> no_quote run = true.
Proof.
  revert run rest. induction s as [| c s IH]; intros run rest; simpl.
  - now intros [= <- _].
  - destruct (Ascii.eqb c quote) eqn:E; [now intros [= <- _] |].
    destruct (until_quote s) as [run' rest'] eqn:U. intros [= <- _].
    unfold no_quote. simpl. unfold not_char at 1. rewrite E. simpl.
    now apply (IH run' rest').
Qed.

Lemma match_entry (ic : bool) (ext name r : string) :
  no_quote name = true -> has_extension ic ext name = true ->
  match_at ic ext (href ++ name ++ String quote r)
  = Some (name, (String.length href + String.length name + 1)%nat).
Proof.
  intros Hq He. unfold match_at.
  rewrite literal_self, until_quote_run by assumption. now rewrite He.
Qed.

Lemma match_shape (ic : bool) (ext s : string) (skip : nat) (f : string) :
  In f (matches_from ic ext skip s) ->
  no_quote f = true /\ has_extension ic ext f = true.
Proof.
  revert skip. induction s as [| c s IH]; intros skip; [contradiction |].
  cbn [matches_from]. destruct skip as [| k]; [| apply IH].
  destruct (match_at ic ext (String c s)) as [[capture len] |] eqn:M;
    [| apply IH].
  intros [<- | H]; [| now apply (IH _ H)].
  unfold match_at in M.
  destruct (strip_literal ic href (String c s)) as [rest |]; [| discriminate].
  destruct (until_quote rest) as [run after] eqn:U.
  destruct after; [discriminate |].
  destruct (has_extension ic ext run) eqn:X; [| discriminate].
  injection M as <- _. split; [now apply (until_quote_no_quote rest U) | exact X].
Qed.

Lemma has_extension_exact (ext f : string) :
  has_extension false ext f = true ->
  exists stem, stem <> EmptyString /\ f = stem ++ ext.
Proof.
  induction f as [| c f IH]; [discriminate |]. cbn [has_extension].
  intros H. apply orb_prop in H. destruct H as [H | H].
  - exists (String c EmptyString). split; [discriminate |].
    unfold is_literal in H.
    destruct (strip_literal false ext f) as [[| ? ?] |] eqn:L; try discriminate.
    apply literal_exact in L. rewrite append_empty in L. now subst.
  - destruct (IH H) as (stem & _ & ->).
    exists (String c stem). split; [discriminate | reflexivity].
Qed.

End ListingFacts.

Section ListingRoundTrip.

Local Open Scope string_scope.

Lemma entry_shape (n T : string) :
  entry n ++ T = "<a " ++ (href ++ (n ++ String quote (label n ++ T))).
Proof.
  unfold entry. fold (label n).
  change (("<a " ++ href ++ n ++ String quote (label n)) ++ T)
    with ("<a " ++ (href ++ ((n ++ String quote (label n)) ++ T))).
  now rewrite append_assoc.
Qed.

Lemma link_shape (n T : string) :
  href ++ (n ++ String quote T)
  = String "h" (("ref=" ++ String quote (n ++ String quote EmptyString)) ++ T).
Proof.
  change (href ++ (n ++ String quote T))
    with (String "h" ("ref=" ++ String quote (n ++ String quote T))).
  change (("ref=" ++ String quote (n ++ String quote EmptyString)) ++ T)
    with ("ref=" ++ String quote ((n ++ String quote EmptyString) ++ T)).
  now rewrite append_assoc.
Qed.

Lemma listing_scanned (ic : bool) (ext : string) (names : list string) :
  Forall (fun n => no_quote n = true /\ has_extension ic ext n = true) names ->
  matches_from ic ext 0 (listing names) = names.
Proof.
  induction names as [| n ns IH]; intros H; [reflexivity |].
  inversion H as [| ? ? [Hq He] Hns]; subst.
  cbn [listing]. rewrite entry_shape.
  (* the text before the link *)
  rewrite skip_block.
  2: reflexivity.
  2: { right. exists "href=", (String quote (n ++ String quote (label n ++ listing ns))).
       repeat split. simpl. lia. }
  (* the link *)
  pose proof (@match_entry ic ext n (label n ++ listing ns) Hq He) as M.
  rewrite link_shape in M |- *.
  cbn [matches_from]. rewrite M. f_equal.
  replace (String.length href + String.length n + 1 - 1)%nat
    with (String.length ("ref=" ++ String quote (n ++ String quote EmptyString)))
    by (simpl; rewrite !length_append; simpl; lia).
  rewrite pass_match.
  (* the label, up to the next entry *)
  rewrite skip_block.
  - now apply IH.
  - unfold label, no_quote. rewrite !all_chars_app. simpl.
    fold (no_quote n). now rewrite Hq.
  - destruct ns as [| n' ns']; [now left | right].
    exists "<a href=", (String quote (n' ++ String quote (label n' ++ listing ns'))).
    repeat split; [| simpl; lia].
    cbn [listing]. now rewrite entry_shape.
Qed.

End ListingRoundTrip.

(** X19.  The scan of a folder listing that links each name once, the
    names free of double quotes and ending in the extension after at least
    one character, finds exactly these names, in the order of the
    listing. *)
Theorem listing_names_are_found (ic : bool) (ext : string)
    (names : list string) :
  Forall (fun n => no_quote n = true /\ has_extension ic ext n = true) names ->
  matchAll ic ext (listing names) = names.
Proof. apply listing_scanned. Qed.

Lemma listing_names_are_found_witness :
  matchAll false ".obj" (listing ["teapot.obj"; "models/cube.obj"]%string)
  = ["teapot.obj"; "models/cube.obj"]%string.
Proof.
  apply listing_names_are_found. repeat constructor.
Defined.

(** X20.  Whatever the text, every name the scan for models returns holds
    no double quote and is a non-empty stem followed by [.obj]; every name
    the scan for markers returns holds no double quote and ends in [.svg]
    in any mix of cases, after at least one character. *)
Theorem matches_have_the_extension (s : string) (f : string) :
  (In f (matchAll false ".obj" s) ->
   no_quote f = true /\ exists stem, stem <> EmptyString /\ f = (stem ++ ".obj")%string)
  /\ (In f (matchAll true ".svg" s) ->
      no_quote f = true /\ has_extension true ".svg" f = true).
Proof.
  split; intros H; apply match_shape in H; destruct H as [Hq He].
  - split; [exact Hq | now apply has_extension_exact].
  - now split.
Qed.

(** X21.  [getFirstSVG] answers [null] when the fetch fails or the listing
    links no marker; otherwise it answers one of the linked names, and the
    least of them in the order of the character codes. *)
Theorem getFirstSVG_picks_the_least (html : string) :
  getFirstSVG None = None
  /\ (matchAll true ".svg" html = [] -> getFirstSVG (Some html) = None)
  /\ (matchAll true ".svg" html <> [] ->
      exists first,
        getFirstSVG (Some html) = Some first
        /\ In first (matchAll true ".svg" html)
        /\ forall g, In g (matchAll true ".svg" html) ->
                     String.leb first g = true).
Proof.
  split; [reflexivity | split].
  - intros E. unfold getFirstSVG. now rewrite E.
  - intros Hne. destruct (sort_first Hne) as (first & rest & E & Hin & Hmin).
    exists first. unfold getFirstSVG. cbv zeta. rewrite E.
    destruct (matchAll true ".svg" html); [contradiction |]. auto.
Qed.

(** X22.  [loadFirstOBJ] throws when the listing of [center_object/]
    links no model; otherwise it returns what [loadOBJ] makes of the file
    behind the least linked name in the order of the character codes. *)
Theorem loadFirstOBJ_loads_the_least (fetch : string -> string) :
  let names := matchAll false ".obj" (fetch "center_object/"%string) in
  (names = [] -> loadFirstOBJ fetch = None)
  /\ (names <> [] ->
      exists first,
        loadFirstOBJ fetch = Some (loadOBJ (fetch first))
        /\ In first names
        /\ forall g, In g names -> String.leb first g = true).
Proof.
  cbv zeta. split.
  - intros E. unfold loadFirstOBJ. now rewrite E.
  - intros Hne. destruct (sort_first Hne) as (first & rest & E & Hin & Hmin).
    exists first. unfold loadFirstOBJ. cbv zeta. rewrite E.
    destruct (matchAll false ".obj" (fetch "center_object/"%string));
      [contradiction |]. auto.
Qed.

Lemma matches_have_the_extension_witness :
  (no_quote "teapot.obj" = true
   /\ exists stem, stem <> EmptyString /\ "teapot.obj"%string = (stem ++ ".obj")%string)
  /\ (no_quote "Mark.SVG" = true /\ has_extension true ".svg" "Mark.SVG" = true).
Proof.
  split.
  - apply (proj1 (@matches_have_the_extension (listing ["teapot.obj"%string])
                    "teapot.obj")).
    vm_compute. now left.
  - apply (proj2 (@matches_have_the_extension (listing ["Mark.SVG"%string])
                    "Mark.SVG")).
    vm_compute. now left.
Defined.

Lemma getFirstSVG_picks_the_least_witness :
  exists first,
    getFirstSVG (Some (listing ["b.svg"; "a.SVG"]%string)) = Some first
    /\ In first (matchAll true ".svg" (listing ["b.svg"; "a.SVG"]%string))
    /\ forall g, In g (matchAll true ".svg" (listing ["b.svg"; "a.SVG"]%string)) ->
                 String.leb first g = true.
Proof.
  apply (proj2 (proj2 (@getFirstSVG_picks_the_least
                         (listing ["b.svg"; "a.SVG"]%string)))).
  vm_compute. discriminate.
Defined.

Lemma loadFirstOBJ_loads_the_least_witness :
  exists first,
    loadFirstOBJ served = Some (loadOBJ (served first))
    /\ In first (matchAll false ".obj" (served "center_object/"))
    /\ forall g, In g (matchAll false ".obj" (served "center_object/")) ->
                 String.leb first g = true.
Proof.
  apply (proj2 (@loadFirstOBJ_loads_the_least served)).
  vm_compute. discriminate.
Defined.
